(** * taskpane.js: extraction heuristics of the Outlook contact add-in

    A shallow embedding of the pure text functions of [src/taskpane.js]
    ([htmlToText], [extractPhoneFR], [normalizePhone], [guessFullName]),
    of the payload built by [createContactOnGraph] and of the form update
    done by [scanAndFill], followed by the properties proved about them.

    A JavaScript string is a sequence of UTF-16 code units, so a string is
    a [list N]; ASCII literals are written with [lit]. The regular
    expressions of the source are terms of a small syntax, run by a
    backtracking matcher in the continuation style of the ECMAScript
    specification. *)

From Stdlib Require Import NArith ZArith Ascii String Bool Arith Lia List.
Import ListNotations.

Local Open Scope N_scope.

(** ** JavaScript strings *)

Module JS.

Definition char := N.
Definition jsstring := list char.

Definition lit (s : string) : jsstring :=
  map N_of_ascii (list_ascii_of_string s).

Definition in_range (lo hi c : char) : bool := (lo <=? c) && (c <=? hi).

(** Truthiness of a string ([Boolean(s)], [if (s)], [s ? a : b]). *)
Definition truthy (s : jsstring) : bool :=
  match s with [] => false | _ :: _ => true end.

(** [a || b] on strings. *)
Definition or_else (a b : jsstring) : jsstring := if truthy a then a else b.

(** [\s] of a regular expression, which is also the set removed by
    [String.prototype.trim]: WhiteSpace and LineTerminator of ECMAScript. *)
Definition is_space (c : char) : bool :=
  in_range 9 13 c || (c =? 32) || (c =? 160) || (c =? 5760)
  || in_range 8192 8202 c || (c =? 8232) || (c =? 8233) || (c =? 8239)
  || (c =? 8287) || (c =? 12288) || (c =? 65279).

(** [\d] (no [u] flag). *)
Definition is_digit (c : char) : bool := in_range 48 57 c.

(** The word characters that [\b] looks at: [A-Za-z0-9_]. *)
Definition is_word (c : char) : bool :=
  in_range 97 122 c || in_range 65 90 c || is_digit c || (c =? 95).

(** Canonicalize of a case-insensitive regular expression without the [u]
    flag: a lower-case letter of Basic Latin or Latin-1 goes to its
    upper-case letter. The characters whose upper case lies outside Latin-1
    (U+00B5, U+00FF and the letters above U+00FF) are left as they are:
    none of them is in a pattern of the source, and none of them
    canonicalizes to a character of a pattern (a character from U+0080 on
    never canonicalizes to an ASCII one, and only U+00E8 goes to
    U+00C8). *)
Definition canonicalize (c : char) : char :=
  if in_range 97 122 c then c - 32
  else if in_range 224 254 c && negb (c =? 247) then c - 32
  else c.

Definition ci_eq (c p : char) : bool := canonicalize c =? canonicalize p.

(** Is [p] at the start of [s]? [eqc] compares a character of the text
    with a character of the pattern. *)
Fixpoint starts_with_by (eqc : char -> char -> bool) (p s : jsstring) : bool :=
  match p, s with
  | [], _ => true
  | x :: p', c :: s' => eqc c x && starts_with_by eqc p' s'
  | _ :: _, [] => false
  end.

(** [s.startsWith(p)]. *)
Definition startsWith (s p : jsstring) : bool := starts_with_by N.eqb p s.

Fixpoint drop_while (cls : char -> bool) (s : jsstring) : jsstring :=
  match s with
  | c :: s' => if cls c then drop_while cls s' else s
  | [] => []
  end.

(** [s.trim()]: white space is dropped at both ends. *)
Definition trimStart (s : jsstring) : jsstring := drop_while is_space s.

Fixpoint trimEnd (s : jsstring) : jsstring :=
  match s with
  | [] => []
  | c :: s' =>
      match trimEnd s' with
      | [] => if is_space c then [] else [c]
      | t => c :: t
      end
  end.

Definition trim (s : jsstring) : jsstring := trimEnd (trimStart s).

(** [s.split(sep)] for a one-character string [sep]: always at least one
    piece. *)
Fixpoint split_char (sep : char) (s : jsstring) : list jsstring :=
  match s with
  | [] => [[]]
  | c :: s' =>
      if c =? sep then [] :: split_char sep s'
      else match split_char sep s' with
           | piece :: pieces => (c :: piece) :: pieces
           | [] => [[c]]
           end
  end.

(** [parts.join(sep)]. *)
Fixpoint join (sep : jsstring) (parts : list jsstring) : jsstring :=
  match parts with
  | [] => []
  | [p] => p
  | p :: rest => p ++ sep ++ join sep rest
  end.

(** [a.findIndex(p)], -1 when no element satisfies [p]. *)
Fixpoint findIndex {A} (p : A -> bool) (l : list A) : Z :=
  match l with
  | [] => (-1)%Z
  | x :: l' =>
      if p x then 0%Z
      else let i := findIndex p l' in
           if (i <? 0)%Z then (-1)%Z else (i + 1)%Z
  end.

(** [a.slice(from, to)] for indices that are not negative. *)
Definition slice {A} (l : list A) (from to : Z) : list A :=
  firstn (Z.to_nat to - Z.to_nat from) (skipn (Z.to_nat from) l).

(** [a.slice(-n)]: the last [n] elements, all of them when there are fewer. *)
Definition slice_last {A} (l : list A) (n : nat) : list A :=
  skipn (length l - n) l.

End JS.

Import JS.

(** ** Regular expressions *)

Module Regex.

(** A position in the text: the characters before it, nearest first, and
    the characters from it on. *)
Record pos := mkpos { before : jsstring; after : jsstring }.

(** The constructs that the expressions of the source use. A character of
    the pattern, a class and [.]-like sets are all [Chr]; [Many] is a
    starred class, greedy ([cls*]) or lazy ([cls*?]). *)
Inductive regex :=
| Chr (cls : char -> bool)
| Eps
| Seq (r1 r2 : regex)
| Alt (r1 r2 : regex)
| Many (greedy : bool) (cls : char -> bool)
| WordB                       (* \b *)
| Bol                         (* ^ without the m flag *)
| Eol.                        (* $ without the m flag *)

Definition Opt (r : regex) : regex := Alt r Eps.                 (* r? *)

Fixpoint Times (n : nat) (r : regex) : regex :=                  (* r{n} *)
  match n with
  | O => Eps
  | S n' => Seq r (Times n' r)
  end.

Definition AtLeast (n : nat) (cls : char -> bool) : regex :=     (* cls{n,} *)
  Seq (Times n (Chr cls)) (Many true cls).

Definition Plus (cls : char -> bool) : regex := AtLeast 1 cls.   (* cls+ *)

Definition just (c : char) : char -> bool := fun x => x =? c.
Definition except (c : char) : char -> bool := fun x => negb (x =? c).
Definition ci (c : char) : char -> bool := fun x => ci_eq x c.   (* i flag *)
Definition any : char -> bool := fun _ => true.                  (* [\s\S] *)

Definition Text (s : jsstring) : regex :=
  fold_right (fun c r => Seq (Chr (just c)) r) Eps s.

Definition TextCI (s : jsstring) : regex :=
  fold_right (fun c r => Seq (Chr (ci c)) r) Eps s.

(** The continuation says whether the rest of the pattern matches from a
    position, and where the whole match then ends. *)
Definition cont := pos -> option pos.

Definition word_at (s : jsstring) : bool :=
  match s with c :: _ => is_word c | [] => false end.

Fixpoint many_greedy (cls : char -> bool) (k : cont) (bef aft : jsstring)
  : option pos :=
  match aft with
  | c :: s =>
      if cls c then
        match many_greedy cls k (c :: bef) s with
        | Some e => Some e
        | None => k (mkpos bef aft)
        end
      else k (mkpos bef aft)
  | [] => k (mkpos bef aft)
  end.

Fixpoint many_lazy (cls : char -> bool) (k : cont) (bef aft : jsstring)
  : option pos :=
  match k (mkpos bef aft) with
  | Some e => Some e
  | None =>
      match aft with
      | c :: s => if cls c then many_lazy cls k (c :: bef) s else None
      | [] => None
      end
  end.

Fixpoint run (r : regex) (k : cont) (p : pos) : option pos :=
  match r with
  | Chr cls =>
      match after p with
      | c :: s => if cls c then k (mkpos (c :: before p) s) else None
      | [] => None
      end
  | Eps => k p
  | Seq r1 r2 => run r1 (run r2 k) p
  | Alt r1 r2 =>
      match run r1 k p with
      | Some e => Some e
      | None => run r2 k p
      end
  | Many true cls => many_greedy cls k (before p) (after p)
  | Many false cls => many_lazy cls k (before p) (after p)
  | WordB => if xorb (word_at (before p)) (word_at (after p)) then k p else None
  | Bol => match before p with [] => k p | _ :: _ => None end
  | Eol => match after p with [] => k p | _ :: _ => None end
  end.

(** The match that starts at [p]: where it ends, and how long it is. *)
Definition match_at (r : regex) (p : pos) : option pos := run r Some p.

Definition match_len (r : regex) (p : pos) : option nat :=
  match match_at r p with
  | Some e => Some (length (after p) - length (after e))%nat
  | None => None
  end.

(** The first match at or after a position, as [RegExp.prototype.exec]
    searches it: the text matched and the position where it starts. *)
Fixpoint search_from (r : regex) (bef aft : jsstring) : option (jsstring * pos) :=
  match match_len r (mkpos bef aft) with
  | Some n => Some (firstn n aft, mkpos bef aft)
  | None =>
      match aft with
      | c :: s => search_from r (c :: bef) s
      | [] => None
      end
  end.

Definition search (r : regex) (s : jsstring) : option (jsstring * pos) :=
  search_from r [] s.

(** [re.test(s)]. *)
Definition test (r : regex) (s : jsstring) : bool :=
  match search r s with Some _ => true | None => false end.

(** [s.match(re)] with the g flag gives every match in order, or null; its
    element 0, the only one the source reads, is the first match. *)
Definition match_first (r : regex) (s : jsstring) : option jsstring :=
  option_map fst (search r s).

(** [s.replace(re, rep)] with the g flag, [rep] holding no [$]: the matches
    are taken from left to right, each search resuming where the previous
    match ended (one character further after an empty match). [skip]
    counts the characters of the current match still to be dropped. *)
Fixpoint replace_from (r : regex) (rep : jsstring) (skip : nat)
    (bef aft : jsstring) : jsstring :=
  match aft with
  | [] =>
      match skip, match_len r (mkpos bef []) with
      | O, Some _ => rep
      | _, _ => []
      end
  | c :: s =>
      match skip with
      | S n => replace_from r rep n (c :: bef) s
      | O =>
          match match_len r (mkpos bef aft) with
          | Some (S n) => rep ++ replace_from r rep n (c :: bef) s
          | Some O => rep ++ c :: replace_from r rep O (c :: bef) s
          | None => c :: replace_from r rep O (c :: bef) s
          end
      end
  end.

Definition replace (r : regex) (rep : jsstring) (s : jsstring) : jsstring :=
  replace_from r rep O [] s.

(** [s.split(re)]: the pieces between the matches of [re]. [piece] holds
    the current piece, last character first; an empty match does not split
    where the current piece is empty. *)
Fixpoint split_from (r : regex) (skip : nat) (piece bef aft : jsstring)
  : list jsstring :=
  match aft with
  | [] => [rev piece]
  | c :: s =>
      match skip with
      | S n => split_from r n piece (c :: bef) s
      | O =>
          match match_len r (mkpos bef aft), piece with
          | Some (S n), _ => rev piece :: split_from r n [] (c :: bef) s
          | Some O, _ :: _ => rev piece :: split_from r O [c] (c :: bef) s
          | _, _ => split_from r O (c :: piece) (c :: bef) s
          end
      end
  end.

Definition split (r : regex) (s : jsstring) : list jsstring :=
  match s, match_len r (mkpos [] []) with
  | [], Some _ => []
  | _, _ => split_from r O [] [] s
  end.

End Regex.

Import Regex.

(** ** htmlToText *)

Definition LT : char := 60.   (* < *)
Definition GT : char := 62.   (* > *)
Definition NL : char := 10.   (* \n *)
Definition AMP : char := 38.  (* & *)

(** The shape of the two block expressions: the opening text, then as few
    characters as possible ([[\s\S]*?]), then the closing text, the i flag
    on. *)
Definition block_re (opening closing : jsstring) : regex :=
  Seq (TextCI opening) (Seq (Many false any) (TextCI closing)).

(** [/<style[\s\S]*?<\/style>/gi] *)
Definition style_re : regex := block_re (lit "<style") (lit "</style>").

(** [/<script[\s\S]*?<\/script>/gi] *)
Definition script_re : regex := block_re (lit "<script") (lit "</script>").

(** [/<[^>]+>/g] *)
Definition tag_re : regex :=
  Seq (Chr (just LT)) (Seq (Plus (except GT)) (Chr (just GT))).

(** [/\n{2,}/g] *)
Definition newlines_re : regex := AtLeast 2 (just NL).

(** The first three calls of [replace]: the style blocks, the script
    blocks, then every tag left. *)
Definition strip_markup (html : jsstring) : jsstring :=
  replace tag_re [NL]
    (replace script_re []
       (replace style_re [] html)).

(** The four entities, in the order of the source. *)
Definition decode_entities (s : jsstring) : jsstring :=
  replace (Text (lit "&gt;")) [GT]
    (replace (Text (lit "&lt;")) [LT]
       (replace (Text (lit "&amp;")) [AMP]
          (replace (Text (lit "&nbsp;")) (lit " ") s))).

Definition collapse_newlines (s : jsstring) : jsstring :=
  replace newlines_re [NL] s.

Definition htmlToText (html : jsstring) : jsstring :=
  let withoutTags := strip_markup html in
  let decoded := trim (collapse_newlines (decode_entities withoutTags)) in
  decoded.

(** ** extractPhoneFR and normalizePhone *)

(** [[\s.\-]], written [[.\-\s]] in [normalizePhone]. *)
Definition is_phone_sep (c : char) : bool :=
  is_space c || (c =? 46) || (c =? 45).

(** [[\s.\-]?\d{2}] *)
Definition phone_group : regex :=
  Seq (Opt (Chr is_phone_sep)) (Times 2 (Chr is_digit)).

(** [/(?:\+33\s?|\b0)(?:[1-9])(?:[\s.\-]?\d{2}){4}\b/g] *)
Definition phone_re : regex :=
  Seq (Alt (Seq (Text (lit "+33")) (Opt (Chr is_space)))
           (Seq WordB (Text (lit "0"))))
      (Seq (Chr (in_range 49 57))
           (Seq (Times 4 phone_group) WordB)).

Definition normalizePhone (raw : jsstring) : jsstring :=
  let p := replace (Chr is_phone_sep) [] raw in
  if startsWith p (lit "+33") then lit "0" ++ skipn 3 p else p.

Definition extractPhoneFR (text : jsstring) : jsstring :=
  match match_first phone_re text with
  | Some m => normalizePhone m
  | None => []
  end.

(** ** guessFullName *)

Definition one_of (l : list char) (c : char) : bool := existsb (N.eqb c) l.

(** [/^(-{2,}|cordialement|bien cordialement|sincèrement|best regards|regards)$/i];
    the fourth phrase has U+00E8 as its fifth letter. *)
Definition boundary_re : regex :=
  Seq Bol
      (Seq (Alt (AtLeast 2 (ci 45))
           (Alt (TextCI (lit "cordialement"))
           (Alt (TextCI (lit "bien cordialement"))
           (Alt (TextCI (lit "sinc" ++ [232] ++ lit "rement"))
           (Alt (TextCI (lit "best regards"))
                (TextCI (lit "regards")))))))
           Eol).

(** [[A-ZÀÂÄÉÈÊËÏÎÔÖÙÛÜÇ]] *)
Definition is_upper_fr (c : char) : bool :=
  in_range 65 90 c
  || one_of [192; 194; 196; 201; 200; 202; 203; 207; 206; 212; 214; 217; 219; 220; 199] c.

(** [[a-zàâäéèêëïîôöùûüç'\-]] *)
Definition is_lower_fr (c : char) : bool :=
  in_range 97 122 c
  || one_of [224; 226; 228; 233; 232; 234; 235; 239; 238; 244; 246; 249; 251; 252; 231] c
  || (c =? 39) || (c =? 45).

(** [/^[A-ZÀÂÄÉÈÊËÏÎÔÖÙÛÜÇ][a-zàâäéèêëïîôöùûüç'\-]+$/] *)
Definition capitalized_re : regex :=
  Seq Bol (Seq (Chr is_upper_fr) (Seq (Plus is_lower_fr) Eol)).

(** [/\s+/] *)
Definition spaces_re : regex := Plus is_space.

(** [l.split(/\s+/).filter(Boolean)] *)
Definition tokens_of (l : jsstring) : list jsstring :=
  filter truthy (split spaces_re l).

(** The body of the [for] loop decides whether it returns the line [l]. *)
Definition name_like (l : jsstring) : bool :=
  let tokens := tokens_of l in
  if (2 <=? length tokens)%nat && (length tokens <=? 4)%nat then
    let capScore := length (filter (test capitalized_re) tokens) in
    (2 <=? capScore)%nat
  else false.

Fixpoint first_name_like (candidateLines : list jsstring) (fallbackSender : jsstring)
  : jsstring :=
  match candidateLines with
  | [] => or_else fallbackSender []
  | l :: rest => if name_like l then l else first_name_like rest fallbackSender
  end.

Definition text_lines (text : jsstring) : list jsstring :=
  filter truthy (map trim (split_char NL text)).

Definition candidate_window (lines : list jsstring) : list jsstring :=
  let sigStartIdx := findIndex (test boundary_re) lines in
  if ((0 <=? sigStartIdx) && (sigStartIdx <? Z.of_nat (length lines) - 1))%Z
  then slice lines (sigStartIdx + 1) (sigStartIdx + 6)
  else slice_last lines 6.

Definition guessFullName (text fallbackSender : jsstring) : jsstring :=
  let lines := text_lines text in
  let candidateLines := candidate_window lines in
  first_name_like candidateLines fallbackSender.

(** ** createContactOnGraph: the contact sent to the Graph API *)

Module Contact.

Record EmailAddress := { address : jsstring; name : jsstring }.

Record t := {
  givenName : jsstring;
  surname : jsstring;
  displayName : jsstring;
  emailAddresses : list EmailAddress;
  businessPhones : list jsstring
}.

Definition with_names (body : t) (given sur : jsstring) : t :=
  {| givenName := given;
     surname := sur;
     displayName := displayName body;
     emailAddresses := emailAddresses body;
     businessPhones := businessPhones body |}.

End Contact.

(** The object [body] of [createContactOnGraph] as it is when it is given
    to [JSON.stringify]. *)
Definition createContactOnGraph_body (displayName email phone : jsstring)
  : Contact.t :=
  let body := {|
    Contact.givenName := [];
    Contact.surname := [];
    Contact.displayName := or_else displayName (or_else email (lit "Nouveau contact"));
    Contact.emailAddresses :=
      if truthy email
      then [{| Contact.address := email; Contact.name := or_else displayName email |}]
      else [];
    Contact.businessPhones := if truthy phone then [phone] else []
  |} in
  let parts := tokens_of (or_else displayName []) in
  if (2 <=? length parts)%nat
  then Contact.with_names body (nth 0 parts []) (join (lit " ") (skipn 1 parts))
  else body.

(** ** scanAndFill: the form of the task pane *)

Record Sender := { sender_email : jsstring; sender_name : jsstring }.

Module Form.

(** The values of the three input fields, named by their element ids. *)
Record t := { fullName : jsstring; email : jsstring; phone : jsstring }.

Inductive id := FullName | Email | Phone.

End Form.

Definition setVal (id : Form.id) (val : jsstring) (form : Form.t) : Form.t :=
  let v := or_else val [] in
  match id with
  | Form.FullName =>
      {| Form.fullName := v; Form.email := Form.email form; Form.phone := Form.phone form |}
  | Form.Email =>
      {| Form.fullName := Form.fullName form; Form.email := v; Form.phone := Form.phone form |}
  | Form.Phone =>
      {| Form.fullName := Form.fullName form; Form.email := Form.email form; Form.phone := v |}
  end.

(** [getItemBodyText]: [res] is the value that [item.body.getAsync] hands
    to the callback, [None] when its status is not Succeeded (the promise
    is then rejected). [htmlToText] is total on strings, so the [catch]
    branch is never taken. The result is the pair of [html] and [text]. *)
Definition getItemBodyText (res : option jsstring) : option (jsstring * jsstring) :=
  match res with
  | Some value =>
      let html := or_else value [] in
      let text := htmlToText html in
      Some (html, text)
  | None => None
  end.

(** The values that the body of [scanAndFill] computes from the message
    body and from the result of [getSenderEmailAndName], before it writes
    them in the form. *)
Definition scan (html : jsstring) (sender : Sender) : option Form.t :=
  match getItemBodyText (Some html) with
  | Some (_, text) =>
      let phone := extractPhoneFR text in
      let fullName := guessFullName text (sender_name sender) in
      Some {| Form.fullName := fullName;
              Form.email := sender_email sender;
              Form.phone := phone |}
  | None => None
  end.

(** [scanAndFill]: a field is written only when the value found is not
    empty; when the body cannot be read the form is left as it is (the
    error goes to the log). *)
Definition scanAndFill (res : option jsstring) (sender : Sender) (form : Form.t)
  : Form.t :=
  match getItemBodyText res with
  | Some (_, text) =>
      let phone := extractPhoneFR text in
      let fullName := guessFullName text (sender_name sender) in
      let form1 := if truthy fullName then setVal Form.FullName fullName form else form in
      let form2 :=
        if truthy (sender_email sender)
        then setVal Form.Email (sender_email sender) form1 else form1 in
      if truthy phone then setVal Form.Phone phone form2 else form2
  | None => form
  end.

(** ** getSenderEmailAndName and createContact *)

Module Mail.

(** The [from] object of the mail item; a property that is missing is
    [None]. *)
Record from := { emailAddress : option jsstring; displayName : option jsstring }.

(** The object [{}]. *)
Definition empty : from := {| emailAddress := None; displayName := None |}.

End Mail.

(** [v || ""] for a property that may be missing. *)
Definition or_empty (v : option jsstring) : jsstring :=
  match v with
  | Some s => or_else s []
  | None => []
  end.

(** [item_from] is [item.from], [None] when the item has no sender. *)
Definition getSenderEmailAndName (item_from : option Mail.from) : Sender :=
  let from := match item_from with Some f => f | None => Mail.empty end in
  {| sender_email := or_empty (Mail.emailAddress from);
     sender_name := or_empty (Mail.displayName from) |}.

(** [createContact], up to the call of [createContactOnGraph]: the three
    fields of the form are read, trimmed, and given to
    [createContactOnGraph], whose [body] is the result here. *)
Definition createContact_body (form : Form.t) : Contact.t :=
  let displayName := trim (Form.fullName form) in
  let email := trim (Form.email form) in
  let phone := trim (Form.phone form) in
  createContactOnGraph_body displayName email phone.

(** * Vocabulary of the properties *)

(** ** Matches *)

(** [lang r bef w aft]: the expression [r] can match the text [w] when [w]
    stands between [bef] (nearest character first) and [aft]. Priorities
    (greedy, lazy, order of alternatives) are left out: this is the set of
    all the matches the backtracking matcher may choose from. *)
Fixpoint lang (r : regex) (bef w aft : jsstring) : Prop :=
  match r with
  | Chr cls => exists c, w = [c] /\ cls c = true
  | Eps => w = []
  | Seq r1 r2 =>
      exists w1 w2, w = w1 ++ w2
                    /\ lang r1 bef w1 (w2 ++ aft)
                    /\ lang r2 (rev w1 ++ bef) w2 aft
  | Alt r1 r2 => lang r1 bef w aft \/ lang r2 bef w aft
  | Many _ cls => forallb cls w = true
  | WordB => w = [] /\ xorb (word_at bef) (word_at aft) = true
  | Bol => w = [] /\ bef = []
  | Eol => w = [] /\ aft = []
  end.

(** Expressions made without [\b] and [^]. *)
Fixpoint forward_only (r : regex) : bool :=
  match r with
  | WordB | Bol => false
  | Seq r1 r2 | Alt r1 r2 => forward_only r1 && forward_only r2
  | Chr _ | Eps | Many _ _ | Eol => true
  end.

(** The expression does not look at what precedes the position. *)
Definition no_lookbehind (r : regex) : Prop :=
  forall b1 b2 a, match_len r (mkpos b1 a) = match_len r (mkpos b2 a).

(** The expression [r] matches at none of the positions of [pre], in the
    text [pre ++ rest] that follows [bef]. *)
Fixpoint unmatched_before (r : regex) (bef pre rest : jsstring) : bool :=
  match pre with
  | [] => true
  | c :: pre' =>
      match match_at r (mkpos bef (pre ++ rest)) with
      | Some _ => false
      | None => unmatched_before r (c :: bef) pre' rest
      end
  end.

(** Length of the longest prefix of [s] made of characters of [cls]. *)
Fixpoint span (cls : char -> bool) (s : jsstring) : nat :=
  match s with
  | c :: s' => if cls c then S (span cls s') else O
  | [] => O
  end.

(** ** Texts *)

(** The lines of a text, one per element. *)
Definition text_of (lines : list jsstring) : jsstring := join [NL] lines.

(** The text [w] is the pattern [p] up to the case of its letters. *)
Definition ci_text (w p : jsstring) : Prop :=
  Forall2 (fun c x => ci_eq c x = true) w p.

(** The text [p] occurs in [t]. *)
Definition occurs (p t : jsstring) : Prop := exists a b, t = a ++ p ++ b.

Fixpoint occursb (p t : jsstring) : bool :=
  startsWith t p
  || match t with
     | [] => false
     | _ :: t' => occursb p t'
     end.

(** The text starts with a tag. *)
Definition tag_first (w : jsstring) : Prop :=
  exists m r, w = LT :: m ++ GT :: r /\ m <> [] /\ ~ In GT m.

(** The text holds a tag: a [<], one character or more other than [>],
    and a [>]. *)
Definition has_tag (t : jsstring) : Prop :=
  exists a m b, t = a ++ LT :: m ++ GT :: b /\ m <> [] /\ ~ In GT m.

(** The text holds one of the four entities that [htmlToText] decodes. *)
Definition has_entity (t : jsstring) : Prop :=
  occurs (lit "&nbsp;") t \/ occurs (lit "&amp;") t
  \/ occurs (lit "&lt;") t \/ occurs (lit "&gt;") t.

(** No two newlines in a row. *)
Fixpoint no_double_nl (s : jsstring) : bool :=
  match s with
  | a :: s' =>
      match s' with
      | b :: _ => negb ((a =? NL) && (b =? NL))
      | [] => true
      end && no_double_nl s'
  | [] => true
  end.

(** ** Phone numbers *)

Definition not_sep (c : char) : bool := negb (is_phone_sep c).

(** The canonical local format: [0], a digit from 1 to 9, eight digits. *)
Definition canonical_phone (p : jsstring) : Prop :=
  exists d ds, p = 48 :: d :: ds
               /\ in_range 49 57 d = true
               /\ length ds = 8%nat
               /\ forallb is_digit ds = true.

(** A French number as the specification writes it: [0X XX XX XX XX] or
    [+33 X XX XX XX XX], each pair of digits preceded by nothing or by one
    dot, space or hyphen. *)
Inductive FRPrefix :=
| Local                    (* 0 *)
| Intl (space : bool).     (* +33, or +33 and a space *)

Record FRGroup := { g_sep : option char; g_hi : char; g_lo : char }.

Record FRNumber := {
  fr_prefix : FRPrefix;
  fr_first : char;
  fr_groups : list FRGroup
}.

Definition fr_sep_ok (o : option char) : bool :=
  match o with
  | None => true
  | Some c => (c =? 46) || (c =? 32) || (c =? 45)
  end.

Definition fr_group_ok (g : FRGroup) : bool :=
  fr_sep_ok (g_sep g) && is_digit (g_hi g) && is_digit (g_lo g).

Definition fr_valid (n : FRNumber) : bool :=
  in_range 49 57 (fr_first n)
  && (length (fr_groups n) =? 4)%nat
  && forallb fr_group_ok (fr_groups n).

Definition render_prefix (p : FRPrefix) : jsstring :=
  match p with
  | Local => lit "0"
  | Intl false => lit "+33"
  | Intl true => lit "+33 "
  end.

Definition render_group (g : FRGroup) : jsstring :=
  match g_sep g with
  | Some c => [c; g_hi g; g_lo g]
  | None => [g_hi g; g_lo g]
  end.

(** The number as it stands in the text. *)
Definition fr_render (n : FRNumber) : jsstring :=
  render_prefix (fr_prefix n)
  ++ fr_first n :: concat (map render_group (fr_groups n)).

(** Its ten digits. *)
Definition fr_canonical (n : FRNumber) : jsstring :=
  48 :: fr_first n :: flat_map (fun g => [g_hi g; g_lo g]) (fr_groups n).

(** [06 12 34 56 78] *)
Definition fr_0612345678 : FRNumber :=
  {| fr_prefix := Local;
     fr_first := 54;
     fr_groups := [ {| g_sep := Some 32; g_hi := 49; g_lo := 50 |};
                    {| g_sep := Some 32; g_hi := 51; g_lo := 52 |};
                    {| g_sep := Some 32; g_hi := 53; g_lo := 54 |};
                    {| g_sep := Some 32; g_hi := 55; g_lo := 56 |} ] |}.

(** [+33612345678] *)
Definition fr_33612345678 : FRNumber :=
  {| fr_prefix := Intl false;
     fr_first := 54;
     fr_groups := [ {| g_sep := None; g_hi := 49; g_lo := 50 |};
                    {| g_sep := None; g_hi := 51; g_lo := 52 |};
                    {| g_sep := None; g_hi := 53; g_lo := 54 |};
                    {| g_sep := None; g_hi := 55; g_lo := 56 |} ] |}.

(** ** Names and signatures *)

(** Splitting on white space, read from left to right: the words are the
    maximal runs of characters that are not white space. [cur] holds the
    word being read, last character first. *)
Fixpoint words_from (cur : jsstring) (s : jsstring) : list jsstring :=
  match s with
  | [] => match cur with [] => [] | _ :: _ => [rev cur] end
  | c :: s' =>
      if is_space c then
        match cur with
        | [] => words_from [] s'
        | _ :: _ => rev cur :: words_from [] s'
        end
      else words_from (c :: cur) s'
  end.

Definition words (s : jsstring) : list jsstring := words_from [] s.

(** The closing phrases that start a signature. *)
Definition closing_phrases : list jsstring :=
  [ lit "cordialement"; lit "bien cordialement";
    lit "sinc" ++ [232] ++ lit "rement"; lit "best regards"; lit "regards" ].

(** A signature boundary: two hyphens or more and nothing else, or one of
    the closing phrases up to the case of its letters. *)
Definition Boundary (l : jsstring) : Prop :=
  ((2 <= length l)%nat /\ forallb (just 45) l = true)
  \/ exists p, In p closing_phrases /\ ci_text l p.

(** The capitalized-word shape: an upper-case letter, then one character
    or more among the lower-case letters, the apostrophe and the hyphen. *)
Definition capitalized (t : jsstring) : bool :=
  match t with
  | c :: (_ :: _) as rest => is_upper_fr c && forallb is_lower_fr rest
  | _ => false
  end.

(** A line qualifies as a name: splitting it on white space gives 2 to 4
    tokens, of which at least 2 have the capitalized-word shape. *)
Definition Qualifies (l : jsstring) : Prop :=
  let toks := words l in
  (2 <= length toks <= 4)%nat
  /\ (2 <= length (filter capitalized toks))%nat.

(** The tail window: the last lines, up to 6 of them. *)
Definition tail_window (lines : list jsstring) : list jsstring :=
  rev (firstn 6 (rev lines)).

(** ** The end-to-end scenario *)

Definition scenario_html : jsstring :=
  lit "<p>Bonjour,</p><p>Mon numero: 06.12.34.56.78</p><p>--</p><p>Marie Curie</p>".

Definition scenario_sender : Sender :=
  {| sender_email := lit "x@y.com"; sender_name := lit "Mx" |}.

(** ** Edges of a text *)

Definition starts_with_space (s : jsstring) : bool :=
  match s with c :: _ => is_space c | [] => false end.

Definition ends_with_space (s : jsstring) : bool := starts_with_space (rev s).

(** A token: a text that is not empty and holds no white space. *)
Definition is_token (w : jsstring) : bool :=
  truthy w && forallb (fun c => negb (is_space c)) w.

(** * Tactics *)

(** Turns boolean comparisons of character codes into inequalities. *)
Ltac boolp :=
  repeat rewrite ?orb_true_iff, ?orb_false_iff, ?andb_true_iff, ?andb_false_iff,
    ?negb_true_iff, ?negb_false_iff, ?N.leb_le, ?N.leb_gt, ?N.eqb_eq, ?N.eqb_neq in *.

Ltac charb :=
  unfold is_phone_sep, is_word, is_digit, is_space, just, except, in_range,
    LT, GT, NL, AMP in *;
  boolp; lia.

(** Closes an equation between two lists built with [rev] and [++]. *)
Ltac rev_eq :=
  cbn [rev app]; rewrite ?rev_app_distr; cbn [rev app];
  rewrite <- ?app_assoc; cbn [app]; reflexivity.

(** * Properties *)

Arguments match_len : simpl never.
Arguments match_at : simpl never.

(** ** Characters *)

Lemma ci_eq_ascii c p :
  p < 65 -> ci_eq c p = true -> c = p.
Proof.
  unfold ci_eq, canonicalize, in_range. intros Hp.
  destruct (97 <=? p) eqn:E1; [apply N.leb_le in E1; lia|]. simpl.
  destruct ((97 <=? c) && (c <=? 122)) eqn:E2;
    [|destruct ((224 <=? c) && (c <=? 254) && negb (c =? 247)) eqn:E3];
    destruct ((224 <=? p) && (p <=? 254) && negb (p =? 247)) eqn:E4;
    boolp; try lia.
Qed.

Lemma ci_eq_LT c : ci_eq c LT = true -> c = LT.
Proof. apply ci_eq_ascii. reflexivity. Qed.

Lemma ci_eq_GT c : ci_eq c GT = true -> c = GT.
Proof. apply ci_eq_ascii. reflexivity. Qed.

Lemma ci_eq_not_LT c : c <> LT -> ci_eq c LT = false.
Proof.
  intros H. destruct (ci_eq c LT) eqn:E; [|reflexivity].
  apply ci_eq_LT in E. contradiction.
Qed.

Lemma ci_eq_sym a b : ci_eq a b = ci_eq b a.
Proof. unfold ci_eq. apply N.eqb_sym. Qed.

Lemma ci_eq_diff c p q :
  ci_eq c p = true -> ci_eq p q = false -> ci_eq c q = false.
Proof.
  unfold ci_eq. rewrite N.eqb_eq, !N.eqb_neq. congruence.
Qed.

Lemma digit_not_sep c : is_digit c = true -> is_phone_sep c = false.
Proof. charb. Qed.

Lemma space_is_sep c : is_space c = true -> is_phone_sep c = true.
Proof.
  unfold is_phone_sep. intros ->. reflexivity.
Qed.

Lemma nonzero_digit c : in_range 49 57 c = true -> is_digit c = true.
Proof. charb. Qed.

(** ** The matcher *)

Module RegexFacts.

(** *** Soundness: what the matcher finds is in the language *)

Lemma many_greedy_sound cls k aft : forall bef e,
  many_greedy cls k bef aft = Some e ->
  exists w rest, aft = w ++ rest /\ forallb cls w = true
                 /\ k (mkpos (rev w ++ bef) rest) = Some e.
Proof.
  induction aft as [|c s IH]; intros bef e H; simpl in H.
  - exists [], []. auto.
  - destruct (cls c) eqn:Hc.
    + destruct (many_greedy cls k (c :: bef) s) eqn:Hrec.
      * inversion H; subst. apply IH in Hrec.
        destruct Hrec as (w & rest & -> & Hw & Hk).
        exists (c :: w), rest. simpl. rewrite Hc, Hw, <- app_assoc. auto.
      * exists [], (c :: s). auto.
    + exists [], (c :: s). auto.
Qed.

Lemma many_lazy_sound cls k aft : forall bef e,
  many_lazy cls k bef aft = Some e ->
  exists w rest, aft = w ++ rest /\ forallb cls w = true
                 /\ k (mkpos (rev w ++ bef) rest) = Some e.
Proof.
  induction aft as [|c s IH]; intros bef e H; simpl in H.
  - destruct (k (mkpos bef [])) eqn:Hk; [|discriminate].
    inversion H; subst. exists [], []. auto.
  - destruct (k (mkpos bef (c :: s))) eqn:Hk.
    + inversion H; subst. exists [], (c :: s). auto.
    + destruct (cls c) eqn:Hc; [|discriminate].
      apply IH in H. destruct H as (w & rest & -> & Hw & Hk').
      exists (c :: w), rest. simpl. rewrite Hc, Hw, <- app_assoc. auto.
Qed.

(** Whatever the matcher answers was reached through a match of the
    language. *)
Theorem run_sound r : forall k bef s e,
  run r k (mkpos bef s) = Some e ->
  exists w aft, s = w ++ aft /\ lang r bef w aft
                /\ k (mkpos (rev w ++ bef) aft) = Some e.
Proof.
  induction r as [cls| |r1 IH1 r2 IH2|r1 IH1 r2 IH2|g cls| | |];
    intros k bef s e H; simpl in H.
  - destruct s as [|c s]; [discriminate|].
    destruct (cls c) eqn:Hc; [|discriminate].
    exists [c], s. simpl. eauto 6.
  - exists [], s. simpl. auto.
  - apply IH1 in H. destruct H as (w1 & aft1 & -> & L1 & H).
    apply IH2 in H. destruct H as (w2 & aft & -> & L2 & H).
    exists (w1 ++ w2), aft. rewrite <- app_assoc. split; [reflexivity|].
    split; [exists w1, w2; auto|].
    rewrite rev_app_distr, <- app_assoc. exact H.
  - destruct (run r1 k (mkpos bef s)) eqn:H1.
    + inversion H; subst. apply IH1 in H1.
      destruct H1 as (w & aft & -> & L & Hk). exists w, aft. simpl. auto.
    + apply IH2 in H.
      destruct H as (w & aft & -> & L & Hk). exists w, aft. simpl. auto.
  - destruct g.
    + apply many_greedy_sound in H. destruct H as (w & rest & -> & Hw & Hk).
      exists w, rest. auto.
    + apply many_lazy_sound in H. destruct H as (w & rest & -> & Hw & Hk).
      exists w, rest. auto.
  - destruct (xorb (word_at bef) (word_at s)) eqn:Hx; [|discriminate].
    exists [], s. simpl. auto.
  - destruct bef; [|discriminate]. exists [], s. simpl. auto.
  - destruct s; [|discriminate]. exists [], []. simpl. auto.
Qed.

Lemma match_at_sound r bef s e :
  match_at r (mkpos bef s) = Some e ->
  exists w aft, s = w ++ aft /\ lang r bef w aft /\ e = mkpos (rev w ++ bef) aft.
Proof.
  intros H. apply run_sound in H. destruct H as (w & aft & -> & L & Hk).
  inversion Hk. eauto.
Qed.

Lemma match_len_sound r bef s n :
  match_len r (mkpos bef s) = Some n ->
  exists w aft, s = w ++ aft /\ length w = n /\ lang r bef w aft.
Proof.
  unfold match_len. destruct (match_at r (mkpos bef s)) eqn:H; [|discriminate].
  apply match_at_sound in H. destruct H as (w & aft & -> & L & ->).
  simpl. intros [= <-]. exists w, aft. rewrite length_app.
  repeat split; auto. lia.
Qed.

Lemma match_len_of_match_at r bef w aft :
  match_at r (mkpos bef (w ++ aft)) = Some (mkpos (rev w ++ bef) aft) ->
  match_len r (mkpos bef (w ++ aft)) = Some (length w).
Proof.
  unfold match_len. intros ->. simpl. rewrite length_app. f_equal. lia.
Qed.

Lemma match_len_none r p : match_at r p = None -> match_len r p = None.
Proof. unfold match_len. intros ->. reflexivity. Qed.

(** The first match found by a search is a match of the language, and no
    match starts before it. *)
Lemma search_from_sound r s : forall bef m p,
  search_from r bef s = Some (m, p) ->
  exists pre aft, s = pre ++ m ++ aft
                  /\ p = mkpos (rev pre ++ bef) (m ++ aft)
                  /\ lang r (rev pre ++ bef) m aft.
Proof.
  induction s as [|c s IH]; intros bef m p H; simpl in H.
  - destruct (match_len r (mkpos bef [])) eqn:Hm; [|discriminate].
    inversion H; subst. apply match_len_sound in Hm.
    destruct Hm as (w & aft & E & Hl & L).
    symmetry in E. apply app_eq_nil in E. destruct E; subst.
    exists [], []. simpl. auto.
  - destruct (match_len r (mkpos bef (c :: s))) eqn:Hm.
    + inversion H; subst. apply match_len_sound in Hm.
      destruct Hm as (w & aft & E & Hl & L).
      exists [], aft. simpl. rewrite E, <- Hl, firstn_app, Nat.sub_diag, firstn_all.
      simpl. rewrite app_nil_r. auto.
    + apply IH in H. destruct H as (pre & aft & -> & -> & L).
      exists (c :: pre), aft. simpl. rewrite <- app_assoc. simpl. auto.
Qed.

Lemma match_first_sound r s m :
  match_first r s = Some m ->
  exists pre aft, s = pre ++ m ++ aft /\ lang r (rev pre) m aft.
Proof.
  unfold match_first, search.
  destruct (search_from r [] s) as [[m' p]|] eqn:H; [|discriminate].
  simpl. intros [= ->]. apply search_from_sound in H.
  destruct H as (pre & aft & -> & _ & L). rewrite app_nil_r in L. eauto.
Qed.

(** *** Languages of the derived forms *)

Lemma lang_Text s : forall bef w aft, lang (Text s) bef w aft -> w = s.
Proof.
  induction s as [|c s IH]; intros bef w aft H; simpl in H.
  - exact H.
  - destruct H as (w1 & w2 & -> & (x & -> & Hx) & H2).
    apply IH in H2. subst. unfold just in Hx. apply N.eqb_eq in Hx. subst.
    reflexivity.
Qed.

Lemma lang_TextCI s : forall bef w aft,
  lang (TextCI s) bef w aft -> ci_text w s.
Proof.
  induction s as [|c s IH]; intros bef w aft H; simpl in H.
  - subst. constructor.
  - destruct H as (w1 & w2 & -> & (x & -> & Hx) & H2).
    apply IH in H2. simpl. constructor; auto.
Qed.

Lemma lang_Times_Chr cls n : forall bef w aft,
  lang (Times n (Chr cls)) bef w aft -> length w = n /\ forallb cls w = true.
Proof.
  induction n as [|n IH]; intros bef w aft H; simpl in H.
  - subst. auto.
  - destruct H as (w1 & w2 & -> & (x & -> & Hx) & H2).
    apply IH in H2. destruct H2 as [<- Hw]. simpl. rewrite Hx, Hw. auto.
Qed.

(** *** One step of the matcher *)

Lemma run_Chr_ok cls k bef c s :
  cls c = true -> run (Chr cls) k (mkpos bef (c :: s)) = k (mkpos (c :: bef) s).
Proof. simpl. intros ->. reflexivity. Qed.

Lemma run_Chr_no cls k bef c s :
  cls c = false -> run (Chr cls) k (mkpos bef (c :: s)) = None.
Proof. simpl. intros ->. reflexivity. Qed.

Lemma run_Seq a b k p : run (Seq a b) k p = run a (run b k) p.
Proof. reflexivity. Qed.

Lemma run_Alt a b k p :
  run (Alt a b) k p
  = match run a k p with Some e => Some e | None => run b k p end.
Proof. reflexivity. Qed.

Lemma run_Opt r k p :
  run (Opt r) k p = match run r k p with Some e => Some e | None => k p end.
Proof. reflexivity. Qed.

Lemma run_WordB k bef aft :
  run WordB k (mkpos bef aft)
  = if xorb (word_at bef) (word_at aft) then k (mkpos bef aft) else None.
Proof. reflexivity. Qed.

Lemma run_Text_ok s : forall k bef rest,
  run (Text s) k (mkpos bef (s ++ rest)) = k (mkpos (rev s ++ bef) rest).
Proof.
  induction s as [|c s IH]; intros k bef rest; [reflexivity|].
  cbn [Text fold_right app]. fold (Text s).
  rewrite run_Seq, run_Chr_ok by apply N.eqb_refl.
  rewrite IH. cbn [rev]. rewrite <- app_assoc. reflexivity.
Qed.

Lemma run_Text_no c s k bef x rest :
  x <> c -> run (Text (c :: s)) k (mkpos bef (x :: rest)) = None.
Proof.
  intros H. cbn [Text fold_right]. rewrite run_Seq.
  apply run_Chr_no. unfold just. apply N.eqb_neq. exact H.
Qed.

Lemma run_TextCI_ok w s : ci_text w s ->
  forall k bef rest,
  run (TextCI s) k (mkpos bef (w ++ rest)) = k (mkpos (rev w ++ bef) rest).
Proof.
  induction 1 as [|c x w s Hc _ IH]; intros k bef rest; [reflexivity|].
  cbn [TextCI fold_right app]. fold (TextCI s).
  rewrite run_Seq, run_Chr_ok by exact Hc.
  rewrite IH. cbn [rev]. rewrite <- app_assoc. reflexivity.
Qed.

Lemma run_TextCI_other x s k bef c rest :
  ci_eq c x = false ->
  run (TextCI (x :: s)) k (mkpos bef (c :: rest)) = None.
Proof.
  intros H. cbn [TextCI fold_right]. rewrite run_Seq.
  apply run_Chr_no. exact H.
Qed.

Lemma match_len_Chr cls bef s :
  match_len (Chr cls) (mkpos bef s)
  = match s with
    | c :: _ => if cls c then Some 1%nat else None
    | [] => None
    end.
Proof.
  unfold match_len, match_at. simpl. destruct s as [|c s]; [reflexivity|].
  destruct (cls c); [|reflexivity]. cbn [after length]. f_equal. lia.
Qed.

(** The lazy star steps over a text without [<] when what follows it in
    the pattern starts with [<]. *)
Lemma many_lazy_skip (k : cont) x : forall bef rest,
  (forall b c a, c <> LT -> k (mkpos b (c :: a)) = None) ->
  ~ In LT x ->
  rest <> [] ->
  many_lazy any k bef (x ++ rest) = many_lazy any k (rev x ++ bef) rest.
Proof.
  induction x as [|c x IH]; intros bef rest Hk Hx Hrest; [reflexivity|].
  cbn [app many_lazy]. rewrite Hk by (intros ->; apply Hx; left; reflexivity).
  cbn [any]. rewrite IH; auto.
  - cbn [rev]. rewrite <- app_assoc. reflexivity.
  - intros Hin. apply Hx. right. exact Hin.
Qed.

Lemma many_lazy_now cls (k : cont) bef aft e :
  k (mkpos bef aft) = Some e -> many_lazy cls k bef aft = Some e.
Proof. intros H. destruct aft; cbn [many_lazy]; rewrite H; reflexivity. Qed.

Lemma search_from_hit r bef s n :
  match_len r (mkpos bef s) = Some n ->
  search_from r bef s = Some (firstn n s, mkpos bef s).
Proof. intros H. destruct s; simpl; rewrite H; reflexivity. Qed.

Lemma run_Alt_some_l a b k p :
  run a k p <> None -> run (Alt a b) k p <> None.
Proof. rewrite run_Alt. destruct (run a k p); congruence. Qed.

Lemma run_Alt_some_r a b k p :
  run b k p <> None -> run (Alt a b) k p <> None.
Proof. rewrite run_Alt. destruct (run a k p); congruence. Qed.

Lemma many_greedy_all cls (k : cont) s : forall bef e,
  forallb cls s = true ->
  k (mkpos (rev s ++ bef) []) = Some e ->
  many_greedy cls k bef s <> None.
Proof.
  induction s as [|c s IH]; intros bef e Hs Hk; cbn [many_greedy].
  - cbn [rev app] in Hk. congruence.
  - cbn [forallb] in Hs. apply andb_true_iff in Hs. destruct Hs as [Hc Hs].
    rewrite Hc. cbn [rev] in Hk. rewrite <- app_assoc in Hk.
    specialize (IH (c :: bef) e Hs Hk).
    destruct (many_greedy cls k (c :: bef) s); congruence.
Qed.

Lemma test_of_match_at r s :
  match_at r (mkpos [] s) <> None -> test r s = true.
Proof.
  intros H. unfold test, search.
  destruct (match_len r (mkpos [] s)) as [n|] eqn:E.
  - rewrite (search_from_hit _ _ _ _ E). reflexivity.
  - unfold match_len in E. destruct (match_at r (mkpos [] s)); congruence.
Qed.

(** A match of an expression that starts with [^] starts the text. *)
Lemma test_Bol r s :
  test (Seq Bol r) s = true -> exists m aft, s = m ++ aft /\ lang r [] m aft.
Proof.
  unfold test, search.
  destruct (search_from (Seq Bol r) [] s) as [[m p]|] eqn:E; [|discriminate].
  intros _. apply search_from_sound in E.
  destruct E as (pre & aft & -> & _ & L). cbn [lang] in L.
  destruct L as (w1 & w2 & -> & (-> & Hbef) & L).
  rewrite app_nil_r in Hbef.
  assert (pre = []) as -> by (destruct pre; [reflexivity|];
    apply (f_equal (@length _)) in Hbef; cbn [rev] in Hbef;
    rewrite length_app in Hbef; simpl in Hbef; lia).
  cbn [app rev] in *. eauto.
Qed.

(** A match of an expression between [^] and [$] is the whole text. *)
Lemma test_anchored r s :
  test (Seq Bol (Seq r Eol)) s = true -> lang r [] s [].
Proof.
  intros H. apply test_Bol in H. destruct H as (m & aft & -> & L).
  cbn [lang] in L. destruct L as (w3 & w4 & -> & L & (-> & ->)).
  rewrite !app_nil_r in *. exact L.
Qed.

(** *** Runs of a class *)

Lemma span_le_length cls s : (span cls s <= length s)%nat.
Proof.
  induction s as [|c s IH]; simpl; [lia|]. destruct (cls c); simpl; lia.
Qed.

Lemma skipn_span cls s : skipn (span cls s) s = drop_while cls s.
Proof.
  induction s as [|c s IH]; simpl; [reflexivity|].
  destruct (cls c); simpl; auto.
Qed.

Lemma span_skipn cls n : forall s,
  (n <= span cls s)%nat -> span cls (skipn n s) = (span cls s - n)%nat.
Proof.
  induction n as [|n IH]; intros s H; simpl.
  - lia.
  - destruct s as [|c s]; simpl in *; [lia|].
    destruct (cls c); [|lia]. apply IH. lia.
Qed.

Lemma drop_while_head cls s c t :
  drop_while cls s = c :: t -> cls c = false.
Proof.
  induction s as [|x s IH]; simpl; [discriminate|].
  destruct (cls x) eqn:E; [exact IH|]. intros [= <- _]. exact E.
Qed.

Lemma drop_while_length cls s : (length (drop_while cls s) <= length s)%nat.
Proof.
  induction s as [|x s IH]; simpl; [lia|]. destruct (cls x); simpl; lia.
Qed.

Lemma many_greedy_total cls s : forall bef,
  many_greedy cls Some bef s
  = Some (mkpos (rev (firstn (span cls s) s) ++ bef) (skipn (span cls s) s)).
Proof.
  induction s as [|c s IH]; intros bef; simpl; [reflexivity|].
  destruct (cls c); [|reflexivity].
  rewrite IH. simpl. rewrite <- app_assoc. reflexivity.
Qed.

Lemma run_Times_Chr cls n : forall k bef s,
  run (Times n (Chr cls)) k (mkpos bef s)
  = if (n <=? span cls s)%nat
    then k (mkpos (rev (firstn n s) ++ bef) (skipn n s))
    else None.
Proof.
  induction n as [|n IH]; intros k bef s; [reflexivity|].
  cbn [Times]. rewrite run_Seq.
  destruct s as [|c s]; [reflexivity|].
  cbn [span]. destruct (cls c) eqn:E.
  - rewrite run_Chr_ok, IH by exact E.
    change (S n <=? S (span cls s))%nat with (n <=? span cls s)%nat.
    destruct (n <=? span cls s)%nat; [|reflexivity].
    cbn [firstn skipn rev]. rewrite <- app_assoc. reflexivity.
  - rewrite run_Chr_no by exact E. reflexivity.
Qed.

(** [cls{n,}] matches the whole run when it has [n] characters or more. *)
Lemma match_len_AtLeast cls n bef s :
  match_len (AtLeast n cls) (mkpos bef s)
  = if (n <=? span cls s)%nat then Some (span cls s) else None.
Proof.
  unfold match_len, match_at, AtLeast. rewrite run_Seq, run_Times_Chr.
  destruct (Nat.leb_spec n (span cls s)) as [H|H]; [|reflexivity].
  cbn [run before after]. rewrite many_greedy_total. cbn [after].
  rewrite skipn_skipn, length_skipn, span_skipn by exact H.
  f_equal. pose proof (span_le_length cls s). lia.
Qed.

(** *** Expressions that do not look behind *)

(** What the matcher answers does not depend on the characters before the
    position, for an expression without [\b] and [^]. *)
Lemma many_greedy_forward cls (k1 k2 : cont) :
  (forall b1 b2 a,
     option_map after (k1 (mkpos b1 a)) = option_map after (k2 (mkpos b2 a))) ->
  forall a b1 b2,
    option_map after (many_greedy cls k1 b1 a)
    = option_map after (many_greedy cls k2 b2 a).
Proof.
  intros Hk. induction a as [|c a IH]; intros b1 b2; cbn [many_greedy].
  - apply Hk.
  - destruct (cls c); [|apply Hk].
    specialize (IH (c :: b1) (c :: b2)).
    destruct (many_greedy cls k1 (c :: b1) a), (many_greedy cls k2 (c :: b2) a);
      try discriminate; [exact IH|apply Hk].
Qed.

Lemma many_lazy_forward cls (k1 k2 : cont) :
  (forall b1 b2 a,
     option_map after (k1 (mkpos b1 a)) = option_map after (k2 (mkpos b2 a))) ->
  forall a b1 b2,
    option_map after (many_lazy cls k1 b1 a)
    = option_map after (many_lazy cls k2 b2 a).
Proof.
  intros Hk. induction a as [|c a IH]; intros b1 b2; cbn [many_lazy].
  - specialize (Hk b1 b2 []).
    destruct (k1 (mkpos b1 [])), (k2 (mkpos b2 [])); try discriminate;
      [exact Hk|reflexivity].
  - specialize (Hk b1 b2 (c :: a)).
    destruct (k1 (mkpos b1 (c :: a))), (k2 (mkpos b2 (c :: a)));
      try discriminate; [exact Hk|].
    destruct (cls c); [apply IH|reflexivity].
Qed.

Lemma run_forward r : forward_only r = true ->
  forall k1 k2 : cont,
  (forall b1 b2 a,
     option_map after (k1 (mkpos b1 a)) = option_map after (k2 (mkpos b2 a))) ->
  forall b1 b2 a,
    option_map after (run r k1 (mkpos b1 a))
    = option_map after (run r k2 (mkpos b2 a)).
Proof.
  induction r as [cls| |r1 IH1 r2 IH2|r1 IH1 r2 IH2|g cls| | |];
    cbn [forward_only]; intros Hr k1 k2 Hk b1 b2 a; try discriminate.
  - cbn [run after before]. destruct a as [|c a]; [reflexivity|].
    destruct (cls c); [apply Hk|reflexivity].
  - apply Hk.
  - apply andb_true_iff in Hr. destruct Hr as [H1 H2].
    rewrite !run_Seq. apply IH1; [exact H1|].
    intros. apply IH2; assumption.
  - apply andb_true_iff in Hr. destruct Hr as [H1 H2].
    rewrite !run_Alt.
    specialize (IH1 H1 k1 k2 Hk b1 b2 a).
    destruct (run r1 k1 (mkpos b1 a)), (run r1 k2 (mkpos b2 a));
      try discriminate; [exact IH1|].
    apply IH2; assumption.
  - destruct g; cbn [run before after].
    + apply many_greedy_forward. exact Hk.
    + apply many_lazy_forward. exact Hk.
  - cbn [run after]. destruct a; [apply Hk|reflexivity].
Qed.

Lemma forward_only_no_lookbehind r : forward_only r = true -> no_lookbehind r.
Proof.
  intros Hr b1 b2 a. unfold match_len, match_at.
  pose proof (run_forward r Hr Some Some (fun _ _ _ => eq_refl) b1 b2 a) as H.
  destruct (run r Some (mkpos b1 a)), (run r Some (mkpos b2 a));
    try discriminate; [|reflexivity].
  cbn [option_map] in H. injection H as ->. reflexivity.
Qed.

Lemma forward_only_TextCI s : forward_only (TextCI s) = true.
Proof. induction s; [reflexivity|exact IHs]. Qed.

Lemma no_lookbehind_block opening closing :
  no_lookbehind (block_re opening closing).
Proof.
  apply forward_only_no_lookbehind. unfold block_re. cbn [forward_only].
  rewrite !forward_only_TextCI. reflexivity.
Qed.

Lemma no_lookbehind_AtLeast cls n : no_lookbehind (AtLeast n cls).
Proof. intros b1 b2 a. rewrite !match_len_AtLeast. reflexivity. Qed.

(** *** search, replace and split *)

Lemma search_from_unmatched r pre : forall bef rest,
  unmatched_before r bef pre rest = true ->
  search_from r bef (pre ++ rest) = search_from r (rev pre ++ bef) rest.
Proof.
  induction pre as [|c pre IH]; intros bef rest H; [reflexivity|].
  cbn [unmatched_before] in H.
  destruct (match_at r (mkpos bef ((c :: pre) ++ rest))) eqn:Hm; [discriminate|].
  apply match_len_none in Hm. cbn [app] in *. cbn [search_from].
  rewrite Hm, IH by exact H. cbn [rev]. rewrite <- app_assoc. reflexivity.
Qed.

(** Replacing a class by nothing keeps the characters outside the class. *)
Lemma replace_from_class_empty cls s : forall bef,
  replace_from (Chr cls) [] O bef s = filter (fun c => negb (cls c)) s.
Proof.
  induction s as [|c s IH]; intros bef; simpl.
  - reflexivity.
  - rewrite match_len_Chr. destruct (cls c); simpl; rewrite IH; reflexivity.
Qed.

Lemma replace_class_empty cls s :
  replace (Chr cls) [] s = filter (fun c => negb (cls c)) s.
Proof. apply replace_from_class_empty. Qed.

(** A text in which the expression matches nowhere is left as it is. *)
Lemma replace_from_none r rep s : forall bef,
  (forall b pre a, s = pre ++ a -> match_len r (mkpos b a) = None) ->
  replace_from r rep O bef s = s.
Proof.
  induction s as [|c s IH]; intros bef H; simpl.
  - rewrite (H bef [] []); reflexivity.
  - rewrite (H bef [] (c :: s)) by reflexivity. f_equal. apply IH.
    intros b pre a E. apply (H b (c :: pre)). rewrite E. reflexivity.
Qed.

(** An expression whose matches all have the property [P] leaves a text
    as it is when no part of the text has this property. *)
Lemma replace_unmatched r rep (P : jsstring -> Prop) s :
  (forall bef w aft, lang r bef w aft -> P w) ->
  (forall pre w aft, s = pre ++ w ++ aft -> ~ P w) ->
  replace r rep s = s.
Proof.
  intros Hr Hs. apply replace_from_none. intros b pre a E.
  destruct (match_len r (mkpos b a)) as [n|] eqn:Em; [|reflexivity].
  apply match_len_sound in Em. destruct Em as (w & aft & -> & _ & L).
  exfalso. exact (Hs pre w aft E (Hr _ _ _ L)).
Qed.

Lemma replace_from_skip r rep n : forall bef s,
  (n <= length s)%nat ->
  replace_from r rep n bef s
  = replace_from r rep O (rev (firstn n s) ++ bef) (skipn n s).
Proof.
  induction n as [|n IH]; intros bef s H; [reflexivity|].
  destruct s as [|c s]; [simpl in H; lia|].
  cbn [replace_from firstn skipn rev]. rewrite IH by (simpl in H; lia).
  rewrite <- app_assoc. reflexivity.
Qed.

Lemma replace_from_bef r rep :
  no_lookbehind r ->
  forall s n b1 b2, replace_from r rep n b1 s = replace_from r rep n b2 s.
Proof.
  intros Hr. induction s as [|c s IH]; intros n b1 b2; cbn [replace_from].
  - rewrite (Hr b1 b2). reflexivity.
  - destruct n as [|n]; [|apply IH].
    rewrite (Hr b1 b2).
    destruct (match_len r (mkpos b2 (c :: s))) as [[|m]|];
      rewrite (IH _ (c :: b1) (c :: b2)); reflexivity.
Qed.

Lemma replace_from_step r rep bef c s :
  match_len r (mkpos bef (c :: s)) = None ->
  replace_from r rep O bef (c :: s) = c :: replace_from r rep O (c :: bef) s.
Proof. intros H. cbn [replace_from]. rewrite H. reflexivity. Qed.

Lemma replace_from_copy r rep u : forall bef rest,
  (forall b c a, c <> LT -> match_len r (mkpos b (c :: a)) = None) ->
  ~ In LT u ->
  replace_from r rep O bef (u ++ rest)
  = u ++ replace_from r rep O (rev u ++ bef) rest.
Proof.
  induction u as [|c u IH]; intros bef rest Hr Hu; [reflexivity|].
  cbn [app]. rewrite replace_from_step
    by (apply Hr; intros ->; apply Hu; left; reflexivity).
  rewrite IH; auto.
  - cbn [rev]. rewrite <- app_assoc. reflexivity.
  - intros Hin. apply Hu. right. exact Hin.
Qed.

Lemma truthy_rev_cons c (piece : jsstring) : truthy (rev (c :: piece)) = true.
Proof.
  cbn [rev]. destruct (rev piece); reflexivity.
Qed.

(** [split(/\s+/).filter(Boolean)] gives the words of the text. The
    invariant covers the two states of [split_from]: reading a piece, and
    dropping the rest of a run of white space. *)
Lemma split_spaces_words s : forall skip piece bef,
  (skip <= span is_space s)%nat ->
  (skip <> O -> piece = []) ->
  filter truthy (split_from spaces_re skip piece bef s) = words_from piece s.
Proof.
  induction s as [|c s IH]; intros skip piece bef Hskip Hpiece.
  - cbn [split_from filter words_from].
    destruct piece as [|x piece]; [reflexivity|].
    rewrite truthy_rev_cons. reflexivity.
  - cbn [split_from words_from]. cbn [span] in Hskip.
    destruct skip as [|k].
    + unfold spaces_re, Plus. rewrite match_len_AtLeast. cbn [span].
      destruct (is_space c) eqn:Hc.
      * cbn [Nat.leb]. destruct piece as [|x piece]; cbn [filter].
        -- cbn [rev truthy]. apply IH; [lia|reflexivity].
        -- rewrite truthy_rev_cons. f_equal. apply IH; [lia|reflexivity].
      * cbn [Nat.leb]. apply IH; [lia|congruence].
    + destruct (is_space c) eqn:Hc; [|lia].
      rewrite Hpiece by discriminate. apply IH; [lia|reflexivity].
Qed.

Lemma tokens_of_words s : tokens_of s = words s.
Proof.
  unfold tokens_of, split, words.
  assert (E : match_len spaces_re (mkpos [] []) = None)
    by (unfold spaces_re, Plus; rewrite match_len_AtLeast; reflexivity).
  rewrite E.
  replace (match s with [] | _ => split_from spaces_re O [] [] s end)
    with (split_from spaces_re O [] [] s) by (destruct s; reflexivity).
  apply split_spaces_words; [lia|congruence].
Qed.

End RegexFacts.

Import RegexFacts.

(** ** extractPhoneFR *)

(** *** The shape of a matched number *)

(** One group [[\s.\-]?\d{2}]: once the separators are gone, two digits. *)
Lemma lang_group bef w aft :
  lang (Seq (Opt (Chr is_phone_sep)) (Times 2 (Chr is_digit))) bef w aft ->
  length (filter not_sep w) = 2%nat /\ forallb is_digit (filter not_sep w) = true.
Proof.
  intros (w1 & w2 & -> & Hsep & Hd).
  apply lang_Times_Chr in Hd. destruct Hd as [Hlen Hdig].
  assert (Hw2 : filter not_sep w2 = w2).
  { apply forallb_filter_id. rewrite forallb_forall in *. intros x Hx.
    unfold not_sep. rewrite digit_not_sep; auto. }
  rewrite filter_app, Hw2.
  destruct Hsep as [(c & -> & Hc)| ->]; simpl.
  - unfold not_sep. rewrite Hc. simpl. auto.
  - auto.
Qed.

Lemma lang_groups n : forall bef w aft,
  lang (Times n (Seq (Opt (Chr is_phone_sep)) (Times 2 (Chr is_digit)))) bef w aft ->
  length (filter not_sep w) = (2 * n)%nat
  /\ forallb is_digit (filter not_sep w) = true.
Proof.
  induction n as [|n IH]; intros bef w aft H.
  - simpl in H. subst. auto.
  - change (Times (S n) ?r) with (Seq r (Times n r)) in H.
    destruct H as (w1 & w2 & -> & H1 & H2).
    apply lang_group in H1. apply IH in H2.
    destruct H1 as [L1 D1], H2 as [L2 D2].
    rewrite filter_app, length_app, forallb_app, L1, L2, D1, D2.
    split; [lia|reflexivity].
Qed.

Lemma normalizePhone_of_match bef w aft :
  lang phone_re bef w aft -> canonical_phone (normalizePhone w).
Proof.
  intros (wp & w1 & -> & Hp & (wd & w2 & -> & (d & -> & Hd) & (wg & wb & -> & Hg & (-> & _)))).
  apply lang_groups in Hg. destruct Hg as [Hlen Hdig].
  assert (Hnd : not_sep d = true).
  { unfold not_sep. rewrite digit_not_sep; auto using nonzero_digit. }
  unfold normalizePhone. rewrite replace_class_empty.
  fold not_sep. rewrite app_nil_r, !filter_app. simpl. rewrite Hnd.
  exists d, (filter not_sep wg).
  destruct Hp as [(wa & wb & -> & Ht & Hs)|(wa & wb & -> & (-> & _) & Ht)];
    apply lang_Text in Ht; subst.
  - assert (Hs' : filter not_sep wb = []).
    { destruct Hs as [(c & -> & Hc)| ->]; [|reflexivity].
      simpl. unfold not_sep. rewrite space_is_sep; auto. }
    rewrite filter_app, Hs'. simpl. auto.
  - simpl. auto.
Qed.

(** C10. Whenever [extractPhoneFR] returns a non-empty string, that string
    is in the canonical local format: exactly ten characters, [0], then a
    digit from 1 to 9, then eight digits; it holds no separator and no
    [+]. This covers every match of the expression. *)
Theorem extractPhoneFR_canonical_shape (text : jsstring) :
  extractPhoneFR text <> [] ->
  canonical_phone (extractPhoneFR text)
  /\ length (extractPhoneFR text) = 10%nat
  /\ forallb (fun c => is_digit c && not_sep c && negb (c =? 43))
       (extractPhoneFR text) = true.
Proof.
  unfold extractPhoneFR.
  destruct (match_first phone_re text) as [m|] eqn:Hm; [|congruence].
  intros _. apply match_first_sound in Hm.
  destruct Hm as (pre & aft & _ & L).
  apply normalizePhone_of_match in L. split; [exact L|].
  destruct L as (d & ds & -> & Hd & Hlen & Hds).
  split; [exact (f_equal (fun n => S (S n)) Hlen)|].
  assert (Hall : forall c, is_digit c = true ->
                   is_digit c && not_sep c && negb (c =? 43) = true).
  { intros c Hc. unfold not_sep. rewrite (digit_not_sep c Hc), Hc. simpl.
    clear - Hc. charb. }
  simpl. rewrite (Hall d) by (apply nonzero_digit; exact Hd). simpl.
  rewrite forallb_forall in *. auto.
Qed.

Lemma extractPhoneFR_canonical_shape_witness :
  canonical_phone (extractPhoneFR (lit "Tel : +33 6-12.34 5678, merci"))
  /\ length (extractPhoneFR (lit "Tel : +33 6-12.34 5678, merci")) = 10%nat
  /\ forallb (fun c => is_digit c && not_sep c && negb (c =? 43))
       (extractPhoneFR (lit "Tel : +33 6-12.34 5678, merci")) = true.
Proof.
  apply (extractPhoneFR_canonical_shape (lit "Tel : +33 6-12.34 5678, merci")).
  vm_compute. discriminate.
Defined.

(** *** The matcher on a number written as the specification says *)

Lemma fr_group_ok_inv g :
  fr_group_ok g = true ->
  is_digit (g_hi g) = true /\ is_digit (g_lo g) = true
  /\ match g_sep g with
     | Some c => is_phone_sep c = true /\ is_digit c = false
     | None => True
     end.
Proof.
  unfold fr_group_ok. rewrite !andb_true_iff. intros [[Hs Hh] Hl].
  repeat split; auto.
  destruct (g_sep g) as [c|]; [|exact I].
  simpl in Hs. split; clear - Hs; charb.
Qed.

Lemma run_group g k bef rest :
  fr_group_ok g = true ->
  run phone_group k (mkpos bef (render_group g ++ rest))
  = k (mkpos (rev (render_group g) ++ bef) rest).
Proof.
  intros H. apply fr_group_ok_inv in H. destruct H as (Hh & Hl & Hs).
  unfold render_group, phone_group. destruct (g_sep g) as [c|]; simpl.
  - destruct Hs as [Hc Hd]. rewrite Hc, Hh, Hl, Hd.
    destruct (k _); reflexivity.
  - rewrite (digit_not_sep _ Hh), Hh, Hl. reflexivity.
Qed.

Lemma run_groups gs : forall k bef rest,
  forallb fr_group_ok gs = true ->
  run (Times (length gs) phone_group) k
      (mkpos bef (concat (map render_group gs) ++ rest))
  = k (mkpos (rev (concat (map render_group gs)) ++ bef) rest).
Proof.
  induction gs as [|g gs IH]; intros k bef rest H.
  - reflexivity.
  - simpl in H. apply andb_true_iff in H. destruct H as [Hg Hgs].
    cbn [length Times map concat].
    change (run (Seq ?a ?b) k ?p) with (run a (run b k) p).
    rewrite <- app_assoc, run_group by exact Hg.
    rewrite IH by exact Hgs.
    rewrite rev_app_distr, <- app_assoc. reflexivity.
Qed.

Lemma groups_end_with_digit gs :
  gs <> [] -> forallb fr_group_ok gs = true ->
  forall x, word_at (rev (concat (map render_group gs)) ++ x) = true.
Proof.
  induction gs as [|g gs IH]; intros Hne H x; [congruence|].
  simpl in H. apply andb_true_iff in H. destruct H as [Hg Hgs].
  cbn [map concat]. rewrite rev_app_distr, <- app_assoc.
  destruct gs as [|g' gs].
  - apply fr_group_ok_inv in Hg. destruct Hg as (_ & Hl & _).
    unfold render_group. destruct (g_sep g); simpl;
      unfold is_word; rewrite Hl, !orb_true_r; reflexivity.
  - apply IH; [discriminate|exact Hgs].
Qed.

(** At the start of a valid number that stands between word boundaries,
    the expression matches exactly the number. *)
Lemma match_at_number n bef post :
  fr_valid n = true ->
  (fr_prefix n = Local -> word_at bef = false) ->
  word_at post = false ->
  match_at phone_re (mkpos bef (fr_render n ++ post))
  = Some (mkpos (rev (fr_render n) ++ bef) post).
Proof.
  destruct n as [p d gs]. unfold fr_valid, fr_render. cbn [fr_prefix fr_first fr_groups].
  rewrite !andb_true_iff. intros [[Hd Hlen] Hgs] Hbef Hpost.
  apply Nat.eqb_eq in Hlen.
  assert (Hne : gs <> []) by (intros ->; discriminate).
  set (body := concat (map render_group gs)).
  assert (K : forall b,
    run (Seq (Chr (in_range 49 57)) (Seq (Times 4 phone_group) WordB)) Some
        (mkpos b (d :: body ++ post))
    = Some (mkpos (rev body ++ d :: b) post)).
  { intros b. rewrite run_Seq, run_Chr_ok by exact Hd.
    rewrite run_Seq, <- Hlen. unfold body. rewrite run_groups by exact Hgs.
    rewrite run_WordB, groups_end_with_digit, Hpost by assumption.
    reflexivity. }
  assert (Hsp : is_space d = false) by (clear - Hd; charb).
  assert (Hw : forall x, word_at (48 :: x) = true) by reflexivity.
  assert (Hd43 : d <> 43) by (clear - Hd; charb).
  unfold match_at, phone_re. rewrite run_Seq.
  set (k := run (Seq (Chr (in_range 49 57)) _) Some) in *.
  rewrite run_Alt, !run_Seq, <- app_assoc.
  destruct p as [|[|]]; cbn [render_prefix].
  - change (lit "0") with [48]. change (lit "+33") with [43; 51; 51].
    cbn [app]. rewrite run_Text_no by discriminate.
    rewrite run_WordB, Hw, Hbef by reflexivity. cbn [xorb].
    change (48 :: d :: body ++ post) with ([48] ++ d :: body ++ post).
    rewrite run_Text_ok, K.
    rev_eq.
  - change (lit "+33 ") with (lit "+33" ++ [32]).
    rewrite <- app_assoc, run_Text_ok, run_Opt. cbn [app].
    rewrite run_Chr_ok by reflexivity. rewrite K.
    rev_eq.
  - rewrite run_Text_ok, run_Opt. cbn [app].
    rewrite run_Chr_no by exact Hsp. rewrite K.
    rev_eq.
Qed.

Lemma filter_groups gs :
  forallb fr_group_ok gs = true ->
  filter not_sep (concat (map render_group gs))
  = flat_map (fun g => [g_hi g; g_lo g]) gs.
Proof.
  induction gs as [|g gs IH]; intros H; [reflexivity|].
  simpl in H. apply andb_true_iff in H. destruct H as [Hg Hgs].
  cbn [map concat flat_map]. rewrite filter_app, IH by exact Hgs. f_equal.
  apply fr_group_ok_inv in Hg. destruct Hg as (Hh & Hl & Hs).
  unfold render_group. destruct (g_sep g) as [c|]; cbn [filter]; unfold not_sep.
  - destruct Hs as [-> _]. rewrite !digit_not_sep by assumption. reflexivity.
  - rewrite !digit_not_sep by assumption. reflexivity.
Qed.

(** Normalizing a valid number gives its ten digits, whatever its
    separators are. *)
Lemma normalizePhone_number n :
  fr_valid n = true -> normalizePhone (fr_render n) = fr_canonical n.
Proof.
  destruct n as [p d gs]. unfold fr_valid, fr_render, fr_canonical.
  cbn [fr_prefix fr_first fr_groups].
  rewrite !andb_true_iff. intros [[Hd _] Hgs].
  unfold normalizePhone. rewrite replace_class_empty. fold not_sep.
  rewrite filter_app. cbn [filter].
  assert (Hnd : not_sep d = true).
  { unfold not_sep. rewrite digit_not_sep; auto using nonzero_digit. }
  rewrite Hnd, filter_groups by exact Hgs.
  destruct p as [|[|]]; reflexivity.
Qed.

(** C2, amended. Take a valid French number, in the form [0X XX XX XX XX]
    or [+33 X XX XX XX XX], with any mix of dot, space or hyphen before its
    pairs of digits. If it is the first place of the text where the phone
    expression matches, is not followed by a word character and, when it
    starts with [0], is not preceded by one, then [extractPhoneFR] returns
    its ten digits: [0], then the digits of the number in order, whatever
    the separators are. *)
Theorem extractPhoneFR_first_number (n : FRNumber) (pre post : jsstring) :
  fr_valid n = true ->
  unmatched_before phone_re [] pre (fr_render n ++ post) = true ->
  (fr_prefix n = Local -> word_at (rev pre) = false) ->
  word_at post = false ->
  extractPhoneFR (pre ++ fr_render n ++ post) = fr_canonical n.
Proof.
  intros Hn Hpre Hbef Hpost.
  unfold extractPhoneFR, match_first, search.
  rewrite search_from_unmatched by exact Hpre. rewrite app_nil_r.
  rewrite (search_from_hit _ _ _ (length (fr_render n))).
  - cbn [option_map fst].
    rewrite firstn_app, Nat.sub_diag, firstn_all, app_nil_r.
    apply normalizePhone_number. exact Hn.
  - apply match_len_of_match_at. apply match_at_number; assumption.
Qed.

Lemma extractPhoneFR_first_number_witness :
  extractPhoneFR (lit "06 12 34 56 78") = lit "0612345678"
  /\ extractPhoneFR (lit "+33612345678") = lit "0612345678"
  /\ extractPhoneFR (lit "Mobile 10h-12h: " ++ fr_render fr_0612345678 ++ lit ".")
     = lit "0612345678".
Proof.
  split; [|split].
  - apply (extractPhoneFR_first_number fr_0612345678 [] []); reflexivity.
  - apply (extractPhoneFR_first_number fr_33612345678 [] []);
      [reflexivity|reflexivity|discriminate|reflexivity].
  - apply (extractPhoneFR_first_number fr_0612345678); reflexivity.
Defined.

(** C2 as stated fails: it is not every number contained in the text that
    is returned in canonical form. A number that follows another one is
    ignored, and so is a number glued to a word. *)
Lemma extractPhoneFR_contained_number_missed :
  fr_valid fr_0612345678 = true
  /\ fr_render fr_0612345678 = lit "06 12 34 56 78"
  /\ fr_canonical fr_0612345678 = lit "0612345678"
  /\ extractPhoneFR (lit "01 23 45 67 89 / " ++ fr_render fr_0612345678)
     = lit "0123456789"
  /\ extractPhoneFR (lit "01 23 45 67 89 / " ++ fr_render fr_0612345678)
     <> fr_canonical fr_0612345678
  /\ extractPhoneFR (lit "ref" ++ fr_render fr_0612345678) = []
  /\ extractPhoneFR (lit "ref" ++ fr_render fr_0612345678)
     <> fr_canonical fr_0612345678.
Proof.
  repeat split; try reflexivity; vm_compute; discriminate.
Qed.

(** ** guessFullName *)

Section FindIndex.
Context {A : Type} (p : A -> bool).

Lemma findIndex_none l :
  (forall x, In x l -> p x = false) -> findIndex p l = (-1)%Z.
Proof.
  induction l as [|x l IH]; intros H; [reflexivity|].
  cbn [findIndex]. rewrite (H x) by (left; reflexivity).
  rewrite IH by (intros y Hy; apply H; right; exact Hy). reflexivity.
Qed.

Lemma findIndex_first l1 x l2 :
  (forall y, In y l1 -> p y = false) -> p x = true ->
  findIndex p (l1 ++ x :: l2) = Z.of_nat (length l1).
Proof.
  induction l1 as [|y l1 IH]; intros H Hx.
  - cbn. rewrite Hx. reflexivity.
  - cbn [app findIndex]. rewrite (H y) by (left; reflexivity).
    rewrite IH by (auto; intros z Hz; apply H; right; exact Hz).
    destruct (Z.ltb_spec (Z.of_nat (length l1)) 0); [lia|].
    cbn [length]. lia.
Qed.

End FindIndex.

Lemma forallb_span cls s : forallb cls s = true -> span cls s = length s.
Proof.
  induction s as [|c s IH]; [reflexivity|]. cbn [forallb span length].
  intros H. apply andb_true_iff in H. destruct H as [-> H]. f_equal. auto.
Qed.

Lemma forallb_skipn {A} (f : A -> bool) n : forall l,
  forallb f l = true -> forallb f (skipn n l) = true.
Proof.
  induction n as [|n IH]; intros l H; [exact H|].
  destruct l as [|x l]; [reflexivity|]. cbn [skipn]. apply IH.
  cbn [forallb] in H. apply andb_true_iff in H. apply H.
Qed.

Lemma run_Eol_end bef : run Eol Some (mkpos bef []) = Some (mkpos bef []).
Proof. reflexivity. Qed.

Lemma run_Bol_start k s : run Bol k (mkpos [] s) = k (mkpos [] s).
Proof. reflexivity. Qed.

(** [cls{n,}$] on a text made of [cls] characters only. *)
Lemma run_AtLeast_all cls n bef s :
  (n <= length s)%nat -> forallb cls s = true ->
  run (AtLeast n cls) (run Eol Some) (mkpos bef s) <> None.
Proof.
  intros Hn Hs. unfold AtLeast. rewrite run_Seq, run_Times_Chr.
  rewrite (forallb_span _ _ Hs).
  destruct (Nat.leb_spec n (length s)) as [_|H]; [|lia].
  cbn [run before after].
  eapply many_greedy_all; [apply forallb_skipn; exact Hs|apply run_Eol_end].
Qed.

Lemma run_TextCI_all p l bef :
  ci_text l p -> run (TextCI p) (run Eol Some) (mkpos bef l) <> None.
Proof.
  intros H. rewrite <- (app_nil_r l) at 1.
  rewrite (run_TextCI_ok _ _ H), run_Eol_end. discriminate.
Qed.

Lemma just_ci c x : x < 65 -> ci x c = just x c.
Proof.
  intros Hx. unfold ci, just.
  destruct (ci_eq c x) eqn:E.
  - apply ci_eq_ascii in E; [|exact Hx]. subst. symmetry. apply N.eqb_refl.
  - destruct (N.eqb_spec c x) as [->|]; [|reflexivity].
    unfold ci_eq in E. rewrite N.eqb_refl in E. discriminate.
Qed.

Lemma forallb_ext_eq {A} (f g : A -> bool) l :
  (forall x, f x = g x) -> forallb f l = forallb g l.
Proof. intros H. induction l as [|x l IH]; cbn; [|rewrite H, IH]; reflexivity. Qed.

(** The boundary expression accepts the signature boundaries and nothing
    else. *)
Lemma test_boundary_iff l : test boundary_re l = true <-> Boundary l.
Proof.
  unfold boundary_re. split.
  - intros H. apply test_anchored in H. cbn [lang] in H.
    destruct H as [H|[H|[H|[H|[H|H]]]]].
    + left. unfold AtLeast in H. cbn [lang] in H.
      destruct H as (w1 & w2 & -> & H1 & H2).
      apply lang_Times_Chr in H1. destruct H1 as [Hlen H1].
      rewrite length_app, forallb_app.
      rewrite <- (forallb_ext_eq (ci 45)), <- (forallb_ext_eq (ci 45) _ w2)
        by (intros; apply just_ci; reflexivity).
      rewrite H1, H2. split; [lia|reflexivity].
    + right. eexists. split; [|exact (lang_TextCI _ _ _ _ H)]. left. reflexivity.
    + right. eexists. split; [|exact (lang_TextCI _ _ _ _ H)].
      right. left. reflexivity.
    + right. eexists. split; [|exact (lang_TextCI _ _ _ _ H)].
      do 2 right. left. reflexivity.
    + right. eexists. split; [|exact (lang_TextCI _ _ _ _ H)].
      do 3 right. left. reflexivity.
    + right. eexists. split; [|exact (lang_TextCI _ _ _ _ H)].
      do 4 right. left. reflexivity.
  - intros H. apply test_of_match_at. unfold match_at.
    rewrite run_Seq, run_Bol_start, run_Seq.
    destruct H as [[Hlen Hall]|(p & Hp & Hl)].
    + apply run_Alt_some_l, run_AtLeast_all; [exact Hlen|].
      rewrite (forallb_ext_eq _ (just 45)); [exact Hall|].
      intros; apply just_ci; reflexivity.
    + destruct Hp as [<-|[<-|[<-|[<-|[<-|[]]]]]].
      * apply run_Alt_some_r, run_Alt_some_l, run_TextCI_all, Hl.
      * do 2 apply run_Alt_some_r. apply run_Alt_some_l, run_TextCI_all, Hl.
      * do 3 apply run_Alt_some_r. apply run_Alt_some_l, run_TextCI_all, Hl.
      * do 4 apply run_Alt_some_r. apply run_Alt_some_l, run_TextCI_all, Hl.
      * do 5 apply run_Alt_some_r. apply run_TextCI_all, Hl.
Qed.

Lemma not_boundary l : ~ Boundary l -> test boundary_re l = false.
Proof.
  intros H. destruct (test boundary_re l) eqn:E; [|reflexivity].
  apply test_boundary_iff in E. contradiction.
Qed.

(** The capitalized-word expression accepts the capitalized words and
    nothing else. *)
Lemma test_capitalized t : test capitalized_re t = capitalized t.
Proof.
  destruct (capitalized t) eqn:Hc.
  - apply test_of_match_at. unfold match_at, capitalized_re.
    rewrite run_Seq, run_Bol_start.
    destruct t as [|c [|d rest]]; try discriminate.
    cbn [capitalized] in Hc. apply andb_true_iff in Hc. destruct Hc as [Hu Hl].
    rewrite run_Seq, run_Chr_ok by exact Hu. rewrite run_Seq.
    apply run_AtLeast_all; [simpl; lia|exact Hl].
  - destruct (test capitalized_re t) eqn:E; [|reflexivity].
    unfold capitalized_re in E. apply test_Bol in E.
    destruct E as (m & aft & -> & E).
    unfold Plus, AtLeast in E. cbn [Times lang] in E.
    destruct E as (w1 & w2 & -> & (c & -> & Hu)
                   & (w3 & w4 & -> & (w5 & w6 & -> & (w7 & w8 & -> & (d & -> & Hd) & ->) & Hm)
                      & (-> & ->))).
    cbn [app capitalized] in Hc. rewrite !app_nil_r in Hc.
    cbn [forallb] in Hc. rewrite Hu, Hd, Hm in Hc. discriminate.
Qed.

Lemma name_like_iff l : name_like l = true <-> Qualifies l.
Proof.
  unfold name_like, Qualifies. cbv zeta. rewrite tokens_of_words.
  rewrite (filter_ext _ _ test_capitalized).
  destruct ((2 <=? length (words l))%nat && (length (words l) <=? 4)%nat) eqn:E.
  - apply andb_true_iff in E. destruct E as [E1 E2].
    apply Nat.leb_le in E1, E2. rewrite Nat.leb_le. tauto.
  - apply andb_false_iff in E. rewrite !Nat.leb_gt in E.
    split; [discriminate|]. intros [[? ?] _]. lia.
Qed.

Lemma name_like_false l : ~ Qualifies l -> name_like l = false.
Proof.
  intros H. destruct (name_like l) eqn:E; [|reflexivity].
  apply name_like_iff in E. contradiction.
Qed.

Lemma or_else_empty s : or_else s [] = s.
Proof. destruct s; reflexivity. Qed.

Lemma first_name_like_none w fb :
  (forall x, In x w -> ~ Qualifies x) -> first_name_like w fb = fb.
Proof.
  induction w as [|x w IH]; intros H; cbn [first_name_like].
  - apply or_else_empty.
  - rewrite name_like_false by (apply H; left; reflexivity).
    apply IH. intros y Hy. apply H. right. exact Hy.
Qed.

Lemma first_name_like_first w1 l w2 fb :
  (forall x, In x w1 -> ~ Qualifies x) -> Qualifies l ->
  first_name_like (w1 ++ l :: w2) fb = l.
Proof.
  induction w1 as [|x w1 IH]; intros H Hl; cbn [app first_name_like].
  - apply name_like_iff in Hl. rewrite Hl. reflexivity.
  - rewrite name_like_false by (apply H; left; reflexivity).
    apply IH; [|exact Hl]. intros y Hy. apply H. right. exact Hy.
Qed.

(** A window with a qualifying line splits at its first qualifying line. *)
Lemma first_qualifying_split w :
  (exists l, In l w /\ Qualifies l) ->
  exists w1 l w2, w = w1 ++ l :: w2
                  /\ (forall x, In x w1 -> ~ Qualifies x) /\ Qualifies l.
Proof.
  induction w as [|x w IH]; intros (l & Hin & Hl); [destruct Hin|].
  destruct (name_like x) eqn:E.
  - exists [], x, w. apply name_like_iff in E.
    split; [reflexivity|]. split; [intros y []|exact E].
  - assert (Hx : ~ Qualifies x).
    { intros Hq. apply name_like_iff in Hq. congruence. }
    destruct Hin as [->|Hin]; [contradiction|].
    destruct IH as (w1 & l' & w2 & -> & H1 & H2); [eauto|].
    exists (x :: w1), l', w2.
    split; [reflexivity|]. split; [|exact H2].
    intros y [<-|Hy]; auto.
Qed.

(** C4. If some line of the candidate window qualifies (2 to 4 tokens, at
    least 2 of them capitalized words), [guessFullName] returns the first
    qualifying line of the window, as it stands in the window: every line
    before it in the window does not qualify, so a later qualifying line
    is never returned. *)
Theorem guessFullName_first_qualifying (text fallback : jsstring) :
  (exists l, In l (candidate_window (text_lines text)) /\ Qualifies l) ->
  exists w1 l w2,
    candidate_window (text_lines text) = w1 ++ l :: w2
    /\ (forall x, In x w1 -> ~ Qualifies x)
    /\ Qualifies l
    /\ guessFullName text fallback = l.
Proof.
  intros H. apply first_qualifying_split in H.
  destruct H as (w1 & l & w2 & E & H1 & Hl).
  exists w1, l, w2. split; [exact E|]. split; [exact H1|]. split; [exact Hl|].
  unfold guessFullName. rewrite E. apply first_name_like_first; assumption.
Qed.

Lemma guessFullName_first_qualifying_witness :
  exists w1 l w2,
    candidate_window
      (text_lines (text_of [lit "Bonjour,"; lit "--"; lit "service Achats";
                            lit "Marie Curie"; lit "Jean Dupont"]))
    = w1 ++ l :: w2
    /\ (forall x, In x w1 -> ~ Qualifies x)
    /\ Qualifies l
    /\ guessFullName
         (text_of [lit "Bonjour,"; lit "--"; lit "service Achats";
                   lit "Marie Curie"; lit "Jean Dupont"]) (lit "Mx") = l.
Proof.
  apply guessFullName_first_qualifying.
  exists (lit "Jean Dupont"). split.
  - vm_compute. right. right. left. reflexivity.
  - vm_compute. lia.
Defined.

Example guessFullName_two_names :
  guessFullName
    (text_of [lit "Bonjour,"; lit "--"; lit "service Achats";
              lit "Marie Curie"; lit "Jean Dupont"]) (lit "Mx")
  = lit "Marie Curie".
Proof. vm_compute. reflexivity. Qed.

Example guessFullName_keeps_spacing :
  guessFullName (text_of [lit "--"; lit "   Marie   Curie  "]) (lit "Mx")
  = lit "Marie   Curie".
Proof. vm_compute. reflexivity. Qed.

Lemma firstn_window {A} (mid : list A) (x : A) (rest : list A) :
  (length mid < 5)%nat ->
  firstn 5 (mid ++ x :: rest) = mid ++ x :: firstn (4 - length mid) rest.
Proof.
  intros H. rewrite firstn_app, firstn_all2 by lia. f_equal.
  replace (5 - length mid)%nat with (S (4 - length mid)) by lia.
  reflexivity.
Qed.

(** The window that follows the first boundary line. *)
Lemma candidate_window_after_boundary before b after_b :
  (forall x, In x before -> test boundary_re x = false) ->
  test boundary_re b = true ->
  after_b <> [] ->
  candidate_window (before ++ b :: after_b) = firstn 5 after_b.
Proof.
  intros Hbefore Hb Hne. unfold candidate_window.
  rewrite findIndex_first by assumption.
  rewrite length_app. cbn [length].
  destruct after_b as [|y after_b]; [congruence|]. cbn [length].
  replace ((0 <=? Z.of_nat (length before))
           && (Z.of_nat (length before)
               <? Z.of_nat (length before + S (S (length after_b))) - 1))%Z
    with true
    by (symmetry; apply andb_true_iff; split;
        [apply Z.leb_le|apply Z.ltb_lt]; lia).
  unfold slice.
  replace (Z.to_nat (Z.of_nat (length before) + 6)
           - Z.to_nat (Z.of_nat (length before) + 1))%nat with 5%nat by lia.
  replace (Z.to_nat (Z.of_nat (length before) + 1)) with (length before + 1)%nat
    by lia.
  rewrite skipn_app, skipn_all2 by lia.
  replace (length before + 1 - length before)%nat with 1%nat by lia.
  reflexivity.
Qed.

(** C5, amended. Let the lines of the text (trimmed, the empty ones left
    out) hold a line [Cordialement] followed, fewer than 5 lines later, by
    a line [Jean Dupont]. If no line before [Cordialement] is a signature
    boundary (hyphens or closing phrase) and no line between the two
    qualifies as a name, then [guessFullName] returns [Jean Dupont],
    whatever the fallback is. *)
Theorem guessFullName_after_cordialement
    (text fallback : jsstring) (before mid rest : list jsstring) :
  text_lines text
    = before ++ lit "Cordialement" :: mid ++ lit "Jean Dupont" :: rest ->
  (forall x, In x before -> ~ Boundary x) ->
  (length mid < 5)%nat ->
  (forall x, In x mid -> ~ Qualifies x) ->
  guessFullName text fallback = lit "Jean Dupont".
Proof.
  intros E Hbefore Hlen Hmid. unfold guessFullName. rewrite E.
  rewrite candidate_window_after_boundary;
    [|intros x Hx; apply not_boundary, Hbefore, Hx
     |vm_compute; reflexivity|destruct mid; discriminate].
  rewrite firstn_window by exact Hlen.
  apply first_name_like_first; [exact Hmid|].
  vm_compute. lia.
Qed.

Lemma guessFullName_after_cordialement_witness :
  guessFullName
    (text_of [lit "Bonjour,"; lit ""; lit "Cordialement"; lit "  ";
              lit " 06 12 34 56 78"; lit "Jean Dupont"; lit "ACME SA"])
    (lit "Mx")
  = lit "Jean Dupont".
Proof.
  apply (guessFullName_after_cordialement _ _
           [lit "Bonjour,"] [lit "06 12 34 56 78"] [lit "ACME SA"]).
  - vm_compute. reflexivity.
  - intros x [<-|[]] H. apply test_boundary_iff in H. vm_compute in H.
    discriminate.
  - simpl. lia.
  - intros x [<-|[]]. vm_compute. lia.
Defined.

(** C5 as stated fails: a qualifying line between [Cordialement] and
    [Jean Dupont] is returned instead, and so is the fallback when an
    earlier boundary line sets a window that ends before [Jean Dupont]. *)
Lemma guessFullName_not_always_jean_dupont :
  text_lines (text_of [lit "Cordialement"; lit "Marie Curie"; lit "Jean Dupont"])
  = [lit "Cordialement"; lit "Marie Curie"; lit "Jean Dupont"]
  /\ guessFullName
       (text_of [lit "Cordialement"; lit "Marie Curie"; lit "Jean Dupont"])
       (lit "Mx")
     = lit "Marie Curie"
  /\ guessFullName
       (text_of [lit "Cordialement"; lit "Marie Curie"; lit "Jean Dupont"])
       (lit "Mx")
     <> lit "Jean Dupont"
  /\ guessFullName
       (text_of [lit "--"; lit "a"; lit "b"; lit "c"; lit "d"; lit "e";
                 lit "Cordialement"; lit "Jean Dupont"])
       (lit "Mx")
     = lit "Mx".
Proof.
  repeat split; try (vm_compute; reflexivity). vm_compute. discriminate.
Qed.

Lemma slice_last_tail_window (lines : list jsstring) :
  slice_last lines 6 = tail_window lines.
Proof.
  unfold slice_last, tail_window. rewrite firstn_rev, rev_involutive.
  reflexivity.
Qed.

(** C6. If no line of the text (trimmed, the empty ones left out) is a
    signature boundary (two hyphens or more alone, or a closing phrase in
    any case), and no line of the tail window (the last lines, up to 6)
    qualifies as a name (2 to 4 tokens, at least 2 of them capitalized
    words), then [guessFullName] returns the fallback unchanged; the empty
    string when the fallback is empty. *)
Theorem guessFullName_fallback (text fallback : jsstring) :
  (forall l, In l (text_lines text) -> ~ Boundary l) ->
  (forall l, In l (tail_window (text_lines text)) -> ~ Qualifies l) ->
  guessFullName text fallback = fallback.
Proof.
  intros Hb Hq. unfold guessFullName, candidate_window.
  rewrite findIndex_none by (intros l Hl; apply not_boundary, Hb, Hl).
  cbn [Z.leb Z.compare andb].
  rewrite slice_last_tail_window.
  apply first_name_like_none. exact Hq.
Qed.

Lemma guessFullName_fallback_witness :
  guessFullName
    (text_of [lit "Bonjour,"; lit "merci pour le devis"; lit "A bientot"])
    (lit "Mx") = lit "Mx"
  /\ guessFullName
       (text_of [lit "Bonjour,"; lit "merci pour le devis"; lit "A bientot"])
       [] = [].
Proof.
  assert (Hb : forall l,
    In l (text_lines
            (text_of [lit "Bonjour,"; lit "merci pour le devis"; lit "A bientot"])) ->
    ~ Boundary l).
  { intros l [<-|[<-|[<-|[]]]] H; apply test_boundary_iff in H;
      vm_compute in H; discriminate. }
  assert (Hq : forall l,
    In l (tail_window (text_lines
            (text_of [lit "Bonjour,"; lit "merci pour le devis"; lit "A bientot"]))) ->
    ~ Qualifies l).
  { intros l [<-|[<-|[<-|[]]]]; vm_compute; lia. }
  split; apply guessFullName_fallback; assumption.
Defined.

(** ** htmlToText *)

(** *** Collapsing the newlines *)

Lemma collapse_newlines_other c s :
  c <> NL -> collapse_newlines (c :: s) = c :: collapse_newlines s.
Proof.
  intros H. unfold collapse_newlines, replace. cbn [replace_from].
  unfold newlines_re at 1. rewrite match_len_AtLeast. cbn [span].
  assert (E : just NL c = false) by (apply N.eqb_neq; exact H).
  rewrite E. cbn [Nat.leb]. f_equal.
  apply replace_from_bef, no_lookbehind_AtLeast.
Qed.

Lemma collapse_newlines_nl s :
  collapse_newlines (NL :: s)
  = NL :: collapse_newlines (drop_while (just NL) s).
Proof.
  unfold collapse_newlines, replace. cbn [replace_from].
  unfold newlines_re at 1. rewrite match_len_AtLeast. cbn [span].
  change (just NL NL) with true. cbn iota.
  rewrite <- skipn_span. pose proof (span_le_length (just NL) s) as Hle.
  destruct (span (just NL) s) as [|m] eqn:E; cbn [Nat.leb skipn app].
  - f_equal. apply replace_from_bef, no_lookbehind_AtLeast.
  - f_equal. rewrite replace_from_skip by exact Hle.
    apply replace_from_bef, no_lookbehind_AtLeast.
Qed.

Lemma no_double_nl_other c s :
  c <> NL -> no_double_nl (c :: s) = no_double_nl s.
Proof.
  intros H. cbn [no_double_nl].
  assert (E : (c =? NL) = false) by (apply N.eqb_neq; exact H).
  rewrite E. destruct s; reflexivity.
Qed.

Lemma collapse_newlines_no_double s : no_double_nl (collapse_newlines s) = true.
Proof.
  remember (length s) as n eqn:Hn.
  assert (Hlen : (length s <= n)%nat) by lia. clear Hn. revert s Hlen.
  induction n as [|n IH]; intros s Hlen.
  - destruct s; [reflexivity|simpl in Hlen; lia].
  - destruct s as [|c s]; [reflexivity|]. simpl in Hlen.
    destruct (N.eqb_spec c NL) as [->|Hc].
    + rewrite collapse_newlines_nl.
      pose proof (drop_while_length (just NL) s) as Hd.
      destruct (drop_while (just NL) s) as [|c' t] eqn:E.
      * reflexivity.
      * apply drop_while_head in E. apply N.eqb_neq in E.
        specialize (IH (c' :: t) ltac:(lia)).
        rewrite collapse_newlines_other in * by exact E.
        cbn [no_double_nl] in *. rewrite IH.
        apply N.eqb_neq in E. rewrite E. reflexivity.
    + rewrite collapse_newlines_other, no_double_nl_other by exact Hc.
      apply IH. lia.
Qed.

Lemma collapse_newlines_fixed s :
  no_double_nl s = true -> collapse_newlines s = s.
Proof.
  induction s as [|c s IH]; intros H; [reflexivity|].
  cbn [no_double_nl] in H. apply andb_true_iff in H. destruct H as [H1 H2].
  destruct (N.eqb_spec c NL) as [->|Hc].
  - rewrite collapse_newlines_nl.
    destruct s as [|c' s]; [reflexivity|].
    change (NL =? NL) with true in H1. cbn [andb] in H1.
    apply negb_true_iff in H1. cbn [drop_while]. unfold just at 1.
    rewrite H1. rewrite IH by exact H2. reflexivity.
  - rewrite collapse_newlines_other by exact Hc. rewrite IH by exact H2.
    reflexivity.
Qed.

Lemma collapse_newlines_idempotent s :
  collapse_newlines (collapse_newlines s) = collapse_newlines s.
Proof. apply collapse_newlines_fixed, collapse_newlines_no_double. Qed.

Lemma no_double_nl_app_l a b :
  no_double_nl (a ++ b) = true -> no_double_nl a = true.
Proof.
  induction a as [|x a IH]; intros H; [reflexivity|].
  cbn [app no_double_nl] in *. apply andb_true_iff in H. destruct H as [H1 H2].
  rewrite (IH H2), andb_true_r.
  destruct a as [|y a]; [reflexivity|exact H1].
Qed.

Lemma no_double_nl_app_r a b :
  no_double_nl (a ++ b) = true -> no_double_nl b = true.
Proof.
  induction a as [|x a IH]; intros H; [exact H|].
  cbn [app no_double_nl] in H. apply andb_true_iff in H. apply IH, H.
Qed.

(** *** trim *)

Lemma trimStart_suffix s : exists a, s = a ++ trimStart s.
Proof.
  unfold trimStart. induction s as [|c s [a IH]]; [exists []; reflexivity|].
  cbn [drop_while]. destruct (is_space c).
  - exists (c :: a). simpl. f_equal. exact IH.
  - exists []. reflexivity.
Qed.

Lemma trimEnd_prefix s : exists b, s = trimEnd s ++ b.
Proof.
  induction s as [|c s [b IH]]; [exists []; reflexivity|].
  cbn [trimEnd]. destruct (trimEnd s) as [|x t].
  - destruct (is_space c).
    + exists (c :: s). reflexivity.
    + exists s. reflexivity.
  - exists b. simpl. f_equal. exact IH.
Qed.

Lemma trimEnd_cons c s :
  is_space c = false -> trimEnd (c :: s) = c :: trimEnd s.
Proof.
  intros H. cbn [trimEnd]. destruct (trimEnd s); [rewrite H|]; reflexivity.
Qed.

Lemma trimEnd_idempotent s : trimEnd (trimEnd s) = trimEnd s.
Proof.
  induction s as [|c s IH]; [reflexivity|].
  cbn [trimEnd]. destruct (trimEnd s) as [|x t] eqn:E.
  - destruct (is_space c) eqn:Hc; [reflexivity|].
    cbn [trimEnd]. rewrite Hc. reflexivity.
  - change (trimEnd (c :: x :: t))
      with (match trimEnd (x :: t) with
            | [] => if is_space c then [] else [c]
            | y :: u => c :: y :: u
            end).
    rewrite IH. reflexivity.
Qed.

Lemma trim_idempotent s : trim (trim s) = trim s.
Proof.
  unfold trim, trimStart.
  destruct (drop_while is_space s) as [|c v] eqn:E; [reflexivity|].
  apply drop_while_head in E.
  rewrite trimEnd_cons by exact E. cbn [drop_while]. rewrite E.
  rewrite trimEnd_cons by exact E. rewrite trimEnd_idempotent. reflexivity.
Qed.

Lemma trim_no_double_nl s :
  no_double_nl s = true -> no_double_nl (trim s) = true.
Proof.
  intros H. unfold trim.
  destruct (trimStart_suffix s) as [a Ha].
  destruct (trimEnd_prefix (trimStart s)) as [b Hb].
  rewrite Ha in H. apply no_double_nl_app_r in H.
  rewrite Hb in H. apply no_double_nl_app_l in H. exact H.
Qed.

(** *** Where the markup and entity expressions can match *)

Lemma Forall2_in_r {A B} (R : A -> B -> Prop) l1 l2 y :
  Forall2 R l1 l2 -> In y l2 -> exists x, In x l1 /\ R x y.
Proof.
  induction 1 as [|a b l1 l2 Hab _ IH]; intros Hin; [destruct Hin|].
  destruct Hin as [->|Hin].
  - exists a. simpl. auto.
  - destruct (IH Hin) as (x & Hx & Hr). exists x. simpl. auto.
Qed.

Lemma ci_text_cons_inv w p ps :
  ci_text w (p :: ps) ->
  exists c w', w = c :: w' /\ ci_eq c p = true /\ ci_text w' ps.
Proof. intros H. inversion H; subst. eauto. Qed.

Lemma ci_text_GT w s : ci_text w s -> In GT s -> In GT w.
Proof.
  intros L Hin.
  destruct (Forall2_in_r _ _ _ _ L Hin) as (x & Hx & Hr).
  apply ci_eq_GT in Hr. subst. exact Hx.
Qed.

(** A text that holds a [>] splits at its first [>]. *)
Lemma first_GT l : In GT l -> exists m r, l = m ++ GT :: r /\ ~ In GT m.
Proof.
  induction l as [|c l IH]; intros H; [destruct H|].
  destruct (N.eq_dec c GT) as [->|Hc].
  - exists [], l. split; [reflexivity|]. intros [].
  - destruct H as [H|H]; [contradiction|].
    destruct (IH H) as (m & r & -> & Hm).
    exists (c :: m), r. split; [reflexivity|].
    intros [E|Hin]; [exact (Hc E)|exact (Hm Hin)].
Qed.

Lemma lang_tag bef w aft : lang tag_re bef w aft -> tag_first w.
Proof.
  intros L. unfold tag_re, Plus, AtLeast in L. cbn [Times lang] in L.
  destruct L as (w1 & w23 & -> & (c & -> & Hc)
                 & (w2 & w3 & -> & (wa & wb & -> & (wc & wd & -> & (x & -> & Hx) & ->) & Hm)
                    & (c' & -> & Hc'))).
  apply N.eqb_eq in Hc, Hc'. subst.
  exists (x :: wb), []. rewrite app_nil_r. cbn [app].
  split; [reflexivity|]. split; [discriminate|].
  intros [E|Hin].
  - unfold except in Hx. rewrite E, N.eqb_refl in Hx. discriminate.
  - rewrite forallb_forall in Hm. apply Hm in Hin.
    unfold except in Hin. rewrite N.eqb_refl in Hin. discriminate.
Qed.

(** A block expression whose opening text is [<] and a letter, and whose
    closing text holds a [>], only matches texts that start with a tag. *)
Lemma lang_block p1 o c bef w aft :
  ci_eq GT p1 = false -> In GT c ->
  lang (block_re (LT :: p1 :: o) c) bef w aft -> tag_first w.
Proof.
  intros Hp1 Hc (w1 & w23 & -> & L1 & (w2 & w3 & -> & _ & L3)).
  apply lang_TextCI in L1, L3.
  apply ci_text_cons_inv in L1. destruct L1 as (c0 & O1 & -> & Hc0 & L1).
  apply ci_text_cons_inv in L1. destruct L1 as (c1 & O2 & -> & Hc1 & _).
  apply ci_eq_LT in Hc0. subst c0.
  assert (Hin : In GT (O2 ++ w2 ++ w3)).
  { apply in_or_app. right. apply in_or_app. right.
    exact (ci_text_GT _ _ L3 Hc). }
  destruct (first_GT _ Hin) as (m & r & E & Hm).
  exists (c1 :: m), r. cbn [app]. rewrite E.
  split; [reflexivity|]. split; [discriminate|].
  intros [Ec|Hin']; [rewrite Ec in Hc1; congruence|exact (Hm Hin')].
Qed.

Lemma lang_style bef w aft : lang style_re bef w aft -> tag_first w.
Proof.
  apply (lang_block 115 (lit "tyle") (lit "</style>"));
    [reflexivity|do 7 right; left; reflexivity].
Qed.

Lemma lang_script bef w aft : lang script_re bef w aft -> tag_first w.
Proof.
  apply (lang_block 115 (lit "cript") (lit "</script>"));
    [reflexivity|do 8 right; left; reflexivity].
Qed.

Lemma no_tag_first s pre w aft :
  ~ has_tag s -> s = pre ++ w ++ aft -> ~ tag_first w.
Proof.
  intros Hs E (m & r & -> & Hne & Hm). apply Hs.
  exists pre, m, (r ++ aft). split; [|auto].
  rewrite E. cbn [app]. rewrite <- app_assoc. reflexivity.
Qed.

Lemma strip_markup_tagless s : ~ has_tag s -> strip_markup s = s.
Proof.
  intros H. unfold strip_markup.
  rewrite (replace_unmatched style_re _ tag_first s);
    [|exact lang_style|intros; eapply no_tag_first; eassumption].
  rewrite (replace_unmatched script_re _ tag_first s);
    [|exact lang_script|intros; eapply no_tag_first; eassumption].
  apply (replace_unmatched tag_re _ tag_first s);
    [exact lang_tag|intros; eapply no_tag_first; eassumption].
Qed.

Lemma replace_absent e rep s : ~ occurs e s -> replace (Text e) rep s = s.
Proof.
  intros H. apply (replace_unmatched _ _ (fun w => w = e)).
  - intros bef w aft L. exact (lang_Text _ _ _ _ L).
  - intros pre w aft E ->. apply H. exists pre, aft. exact E.
Qed.

Lemma decode_entities_absent s : ~ has_entity s -> decode_entities s = s.
Proof.
  intros H. unfold decode_entities, has_entity in *.
  rewrite (replace_absent (lit "&nbsp;")) by tauto.
  rewrite (replace_absent (lit "&amp;")) by tauto.
  rewrite (replace_absent (lit "&lt;")) by tauto.
  apply replace_absent. tauto.
Qed.

(** For a text given in full, [has_tag] and [occurs] are refuted by
    evaluation. *)
Lemma has_tag_GT t : has_tag t -> In GT t.
Proof.
  intros (a & m & b & -> & _). apply in_or_app. right. right.
  apply in_or_app. right. left. reflexivity.
Qed.

Lemma startsWith_app p b : startsWith (p ++ b) p = true.
Proof.
  unfold startsWith. induction p as [|c p IH]; [reflexivity|].
  cbn [app starts_with_by]. rewrite N.eqb_refl. exact IH.
Qed.

Lemma occurs_occursb p t : occurs p t -> occursb p t = true.
Proof.
  intros (a & b & ->). induction a as [|c a IH].
  - cbn [app]. destruct (p ++ b) eqn:E; cbn [occursb]; rewrite <- E;
      rewrite startsWith_app; reflexivity.
  - cbn [app occursb]. rewrite IH. apply orb_true_r.
Qed.

(** C3, amended. On an already-normalized text [htmlToText h] that holds
    no tag and none of the four entities, [htmlToText] changes nothing:
    [htmlToText (htmlToText h) = htmlToText h]. The newline-collapsing step
    and the trimming step are idempotent on every text. *)
Theorem htmlToText_idempotent_plain :
  (forall h,
     ~ has_tag (htmlToText h) ->
     ~ has_entity (htmlToText h) ->
     htmlToText (htmlToText h) = htmlToText h)
  /\ (forall s, collapse_newlines (collapse_newlines s) = collapse_newlines s)
  /\ (forall s, trim (trim s) = trim s).
Proof.
  split; [|split; [apply collapse_newlines_idempotent|apply trim_idempotent]].
  intros h Htag Hent.
  set (t := htmlToText h) in *.
  assert (Hnd : no_double_nl t = true).
  { unfold t, htmlToText. apply trim_no_double_nl, collapse_newlines_no_double. }
  unfold htmlToText at 1.
  rewrite strip_markup_tagless by exact Htag.
  rewrite decode_entities_absent by exact Hent.
  rewrite collapse_newlines_fixed by exact Hnd.
  unfold t, htmlToText. apply trim_idempotent.
Qed.

Lemma htmlToText_idempotent_plain_witness :
  htmlToText (lit "<p>R&amp;D : 1 &lt; 2</p><br><br><p>fin</p> ")
  = text_of [lit "R&D : 1 < 2"; lit "fin"]
  /\ htmlToText (htmlToText (lit "<p>R&amp;D : 1 &lt; 2</p><br><br><p>fin</p> "))
     = htmlToText (lit "<p>R&amp;D : 1 &lt; 2</p><br><br><p>fin</p> ").
Proof.
  split; [vm_compute; reflexivity|].
  apply (proj1 htmlToText_idempotent_plain).
  - intros H. apply has_tag_GT in H. vm_compute in H. intuition discriminate.
  - intros [H|[H|[H|H]]]; apply occurs_occursb in H; vm_compute in H;
      discriminate.
Defined.

(** C3 as stated fails: an input with a twice-escaped entity, or with an
    escaped tag, is changed again by a second pass; the entity-decoding
    step is not idempotent on its own output. *)
Lemma htmlToText_not_idempotent :
  htmlToText (lit "&amp;amp;") = lit "&amp;"
  /\ htmlToText (htmlToText (lit "&amp;amp;")) = lit "&"
  /\ htmlToText (htmlToText (lit "&amp;amp;")) <> htmlToText (lit "&amp;amp;")
  /\ decode_entities (decode_entities (lit "&amp;amp;"))
     <> decode_entities (lit "&amp;amp;")
  /\ htmlToText (lit "&lt;b&gt;Hi") = lit "<b>Hi"
  /\ htmlToText (htmlToText (lit "&lt;b&gt;Hi")) = lit "Hi".
Proof.
  repeat split; try (vm_compute; reflexivity); vm_compute; discriminate.
Qed.

(** *** A block that is found is removed with its contents *)

(** The block expression at the start of a block whose contents hold no
    [<]: it matches the block, up to the end of its closing text. *)
Lemma match_len_block o c O x C bef post :
  ci_text O (LT :: o) -> ci_text C (LT :: c) -> ~ In LT x ->
  match_len (block_re (LT :: o) (LT :: c)) (mkpos bef (O ++ x ++ C ++ post))
  = Some (length (O ++ x ++ C)).
Proof.
  intros HO HC Hx.
  replace (O ++ x ++ C ++ post) with ((O ++ x ++ C) ++ post)
    by (rewrite <- !app_assoc; reflexivity).
  apply match_len_of_match_at. rewrite <- !app_assoc.
  unfold match_at, block_re. rewrite run_Seq, (run_TextCI_ok _ _ HO), run_Seq.
  cbn [run before after].
  assert (HCne : C ++ post <> []) by (inversion HC; discriminate).
  rewrite many_lazy_skip; [|intros b ch a Hch|exact Hx|exact HCne].
  - apply many_lazy_now. rewrite (run_TextCI_ok _ _ HC).
    f_equal. f_equal. rev_eq.
  - apply run_TextCI_other, ci_eq_not_LT, Hch.
Qed.

Lemma match_len_block_other o c b ch a :
  ch <> LT -> match_len (block_re (LT :: o) c) (mkpos b (ch :: a)) = None.
Proof.
  intros H. apply match_len_none. unfold match_at, block_re.
  rewrite run_Seq. apply run_TextCI_other, ci_eq_not_LT, H.
Qed.

(** A block after a text without [<] is replaced by nothing, and the
    search goes on after it. *)
Lemma replace_block o c pre O x C post :
  ci_text O (LT :: o) -> ci_text C (LT :: c) ->
  ~ In LT pre -> ~ In LT x ->
  replace (block_re (LT :: o) (LT :: c)) [] (pre ++ O ++ x ++ C ++ post)
  = pre ++ replace (block_re (LT :: o) (LT :: c)) [] post.
Proof.
  intros HO HC Hpre Hx. unfold replace.
  rewrite replace_from_copy; [|intros; apply match_len_block_other; assumption|exact Hpre].
  f_equal.
  pose proof (match_len_block o c O x C (rev pre ++ []) post HO HC Hx) as Hm.
  destruct O as [|h O]; [inversion HO|].
  cbn [app] in *. cbn [replace_from]. rewrite Hm. cbn [length app].
  rewrite replace_from_skip by (rewrite !length_app; lia).
  replace (O ++ x ++ C ++ post) with ((O ++ x ++ C) ++ post)
    by (rewrite <- !app_assoc; reflexivity).
  rewrite skipn_app, skipn_all, Nat.sub_diag. cbn [skipn app].
  apply replace_from_bef, no_lookbehind_block.
Qed.

Lemma replace_block_copy o c pre post :
  ~ In LT pre ->
  replace (block_re (LT :: o) c) [] (pre ++ post)
  = pre ++ replace (block_re (LT :: o) c) [] post.
Proof.
  intros Hpre. unfold replace.
  rewrite replace_from_copy; [|intros; apply match_len_block_other; assumption|exact Hpre].
  f_equal. apply replace_from_bef, no_lookbehind_block.
Qed.

Lemma ci_text_no_LT w s : ci_text w s -> ~ In LT s -> ~ In LT w.
Proof.
  induction 1 as [|c p w s Hc _ IH]; intros Hs Hw; [destruct Hw|].
  destruct Hw as [->|Hw].
  - rewrite ci_eq_sym in Hc. apply ci_eq_LT in Hc. apply Hs. left. exact Hc.
  - apply IH; [|exact Hw]. intros Hin. apply Hs. right. exact Hin.
Qed.

(** The style expression does not match at the start of a script block or
    of its closing text. *)
Lemma style_not_at_script b c0 c1 c2 a :
  ci_eq c2 99 = true ->
  match_len style_re (mkpos b (c0 :: c1 :: c2 :: a)) = None.
Proof.
  intros H. apply match_len_none. unfold match_at, style_re, block_re.
  change (lit "<style") with (60 :: 115 :: 116 :: lit "yle").
  rewrite run_Seq. cbn [TextCI fold_right]. rewrite !run_Seq.
  cbn [run after before]. unfold ci at 1 2 3.
  destruct (ci_eq c0 60); [|reflexivity].
  destruct (ci_eq c1 115); [|reflexivity].
  rewrite (ci_eq_diff c2 99 116 H) by reflexivity. reflexivity.
Qed.

Lemma style_not_at_closing b c0 a :
  match_len style_re (mkpos b (c0 :: 47 :: a)) = None.
Proof.
  apply match_len_none. unfold match_at, style_re, block_re.
  change (lit "<style") with (60 :: 115 :: lit "tyle").
  rewrite run_Seq. cbn [TextCI fold_right]. rewrite !run_Seq.
  cbn [run after before]. unfold ci at 1 2.
  destruct (ci_eq c0 60); reflexivity.
Qed.

(** The first [replace] of [htmlToText] leaves a script block whose
    contents hold no [<] where it is. *)
Lemma replace_style_keeps_script pre O x C post :
  ci_text O (lit "<script") -> ci_text C (lit "</script>") ->
  ~ In LT pre -> ~ In LT x ->
  replace style_re [] (pre ++ O ++ x ++ C ++ post)
  = pre ++ O ++ x ++ C ++ replace style_re [] post.
Proof.
  intros HO HC Hpre Hx.
  assert (Hhead : forall b c a, c <> LT ->
            match_len style_re (mkpos b (c :: a)) = None)
    by (intros; apply match_len_block_other; assumption).
  change (lit "<script") with (60 :: 115 :: 99 :: lit "ript") in HO.
  apply ci_text_cons_inv in HO. destruct HO as (o0 & O1 & -> & _ & HO).
  assert (HO1 : ~ In LT O1).
  { apply (ci_text_no_LT _ _ HO). vm_compute. intuition discriminate. }
  apply ci_text_cons_inv in HO. destruct HO as (o1 & O2 & -> & _ & HO).
  apply ci_text_cons_inv in HO. destruct HO as (o2 & O3 & -> & Ho2 & _).
  change (lit "</script>") with (60 :: 47 :: lit "script>") in HC.
  apply ci_text_cons_inv in HC. destruct HC as (c0 & C1 & -> & _ & HC).
  assert (HC1 : ~ In LT C1).
  { apply (ci_text_no_LT _ _ HC). vm_compute. intuition discriminate. }
  apply ci_text_cons_inv in HC. destruct HC as (c1 & C2 & -> & Hc1 & _).
  apply (ci_eq_ascii c1 47) in Hc1; [subst c1|reflexivity].
  unfold replace.
  rewrite replace_from_copy by assumption. cbn [app].
  rewrite replace_from_step by (apply style_not_at_script; exact Ho2).
  change (o1 :: o2 :: O3 ++ x ++ c0 :: 47 :: C2 ++ post)
    with ((o1 :: o2 :: O3) ++ x ++ c0 :: 47 :: C2 ++ post).
  rewrite replace_from_copy by assumption.
  rewrite replace_from_copy by assumption.
  rewrite replace_from_step by apply style_not_at_closing.
  change (47 :: C2 ++ post) with ((47 :: C2) ++ post).
  rewrite replace_from_copy by assumption.
  rewrite (replace_from_bef style_re [] (no_lookbehind_block _ _) post O _ []).
  reflexivity.
Qed.

(** A style block or a script block (opening and closing texts in any
    case) whose contents hold no [<], after a text that holds no [<],
    leaves nothing in the result: [htmlToText] gives what it gives on the
    text without the block. *)
Lemma htmlToText_style_block_removed pre O x C post :
  ci_text O (lit "<style") -> ci_text C (lit "</style>") ->
  ~ In LT pre -> ~ In LT x ->
  htmlToText (pre ++ O ++ x ++ C ++ post) = htmlToText (pre ++ post).
Proof.
  intros HO HC Hpre Hx. unfold htmlToText, strip_markup.
  do 5 f_equal. unfold style_re.
  change (lit "<style") with (LT :: lit "style") in *.
  change (lit "</style>") with (LT :: lit "/style>") in *.
  rewrite replace_block, replace_block_copy by assumption. reflexivity.
Qed.

Lemma htmlToText_script_block_removed pre O x C post :
  ci_text O (lit "<script") -> ci_text C (lit "</script>") ->
  ~ In LT pre -> ~ In LT x ->
  htmlToText (pre ++ O ++ x ++ C ++ post) = htmlToText (pre ++ post).
Proof.
  intros HO HC Hpre Hx. unfold htmlToText, strip_markup.
  do 4 f_equal. rewrite replace_style_keeps_script by assumption.
  unfold style_re at 2.
  change (lit "<style") with (LT :: lit "style").
  rewrite (replace_block_copy _ _ pre) by assumption.
  unfold script_re.
  change (lit "<script") with (LT :: lit "script") in *.
  change (lit "</script>") with (LT :: lit "/script>") in *.
  rewrite replace_block, replace_block_copy by assumption. reflexivity.
Qed.

(** C7 at an input where it fails. The script block below holds the text
    [<style>], and a style block follows the script block: the first
    [replace] removes everything from the [<style>] inside the script to
    the [</style>] of the style block, the closing [</script>] included;
    the second [replace] then finds no [</script>], and the text of the
    script block before [<style>] is in the result. Without the [<style>]
    in the script the block is removed, and so is a style block that holds
    the text [<script>]. *)
Theorem htmlToText_script_content_left :
  replace style_re []
    (lit "<script>var t = '<style>';</script><p>Hello</p><style>p{}</style>")
  = lit "<script>var t = '"
  /\ htmlToText
       (lit "<script>var t = '<style>';</script><p>Hello</p><style>p{}</style>")
     = lit "var t = '"
  /\ htmlToText (lit "<script>var t = 1;</script><p>Hello</p><style>p{}</style>")
     = lit "Hello"
  /\ htmlToText
       (lit "<style>p:after{content:'<script>'}</style><p>Hello</p><script>f()</script>")
     = lit "Hello".
Proof.
  repeat split; vm_compute; reflexivity.
Qed.

(** ** The scan *)

(** C1. For the body
    [<p>Bonjour,</p><p>Mon numero: 06.12.34.56.78</p><p>--</p><p>Marie Curie</p>]
    and the sender [{ email: x@y.com, name: Mx }], the scan ([htmlToText],
    then [extractPhoneFR] and [guessFullName] on the plain text with the
    sender name as fallback, the sender email as it is) gives the full
    name [Marie Curie], the phone [0612345678] and the email [x@y.com];
    [scanAndFill] writes these three values in the form. *)
Theorem scan_scenario :
  htmlToText scenario_html
  = text_of [lit "Bonjour,"; lit "Mon numero: 06.12.34.56.78"; lit "--";
             lit "Marie Curie"]
  /\ extractPhoneFR (htmlToText scenario_html) = lit "0612345678"
  /\ guessFullName (htmlToText scenario_html) (sender_name scenario_sender)
     = lit "Marie Curie"
  /\ scan scenario_html scenario_sender
     = Some {| Form.fullName := lit "Marie Curie";
               Form.email := lit "x@y.com";
               Form.phone := lit "0612345678" |}
  /\ forall form,
       scanAndFill (Some scenario_html) scenario_sender form
       = {| Form.fullName := lit "Marie Curie";
            Form.email := lit "x@y.com";
            Form.phone := lit "0612345678" |}.
Proof.
  assert (Et : htmlToText scenario_html
               = text_of [lit "Bonjour,"; lit "Mon numero: 06.12.34.56.78";
                          lit "--"; lit "Marie Curie"])
    by (vm_compute; reflexivity).
  assert (Ep : extractPhoneFR (htmlToText scenario_html) = lit "0612345678")
    by (rewrite Et; vm_compute; reflexivity).
  assert (En : guessFullName (htmlToText scenario_html)
                 (sender_name scenario_sender) = lit "Marie Curie")
    by (rewrite Et; vm_compute; reflexivity).
  split; [exact Et|]. split; [exact Ep|]. split; [exact En|].
  assert (Eh : or_else scenario_html [] = scenario_html) by apply or_else_empty.
  split.
  - unfold scan, getItemBodyText. cbv zeta. rewrite Eh, Ep, En. reflexivity.
  - intros form. unfold scanAndFill, getItemBodyText. cbv zeta.
    rewrite Eh, Ep, En. reflexivity.
Qed.

(** ** The contact *)

(** C8. [createContactOnGraph] splits the full name on white space. With
    at least two words, [givenName] is the first word and [surname] the
    other words joined by one space; with fewer than two, both are empty
    and the name is in [displayName] only. *)
Theorem createContactOnGraph_names (displayName email phone : jsstring) :
  let body := createContactOnGraph_body displayName email phone in
  Contact.displayName body
  = or_else displayName (or_else email (lit "Nouveau contact"))
  /\ (forall first rest,
        words displayName = first :: rest -> rest <> [] ->
        Contact.givenName body = first
        /\ Contact.surname body = join (lit " ") rest)
  /\ ((length (words displayName) < 2)%nat ->
      Contact.givenName body = [] /\ Contact.surname body = []).
Proof.
  cbv zeta. unfold createContactOnGraph_body.
  rewrite or_else_empty, tokens_of_words.
  destruct (Nat.leb_spec 2 (length (words displayName))) as [H|H];
    cbn [Contact.with_names Contact.givenName Contact.surname Contact.displayName].
  - split; [reflexivity|]. split.
    + intros first rest E _. rewrite E. split; reflexivity.
    + intros H'. lia.
  - split; [reflexivity|]. split; [|auto].
    intros first rest E Hrest. rewrite E in H.
    destruct rest; [congruence|simpl in H; lia].
Qed.

Lemma createContactOnGraph_names_witness :
  (Contact.givenName (createContactOnGraph_body (lit "Marie Curie") [] [])
   = lit "Marie"
   /\ Contact.surname (createContactOnGraph_body (lit "Marie Curie") [] [])
      = lit "Curie")
  /\ (Contact.givenName (createContactOnGraph_body (lit "Madonna") [] []) = []
      /\ Contact.surname (createContactOnGraph_body (lit "Madonna") [] []) = [])
  /\ Contact.displayName (createContactOnGraph_body (lit "Madonna") [] [])
     = lit "Madonna".
Proof.
  pose proof (createContactOnGraph_names (lit "Marie Curie") [] []) as H2.
  pose proof (createContactOnGraph_names (lit "Madonna") [] []) as H1.
  cbv zeta in H1, H2.
  destruct H2 as (_ & H2 & _). destruct H1 as (Hd & _ & H1).
  split; [|split].
  - apply (H2 (lit "Marie") [lit "Curie"]).
    + vm_compute. reflexivity.
    + discriminate.
  - apply H1. vm_compute. lia.
  - exact Hd.
Defined.

Example createContactOnGraph_three_words :
  words (lit "  Marie   Sklodowska	Curie ")
  = [lit "Marie"; lit "Sklodowska"; lit "Curie"]
  /\ Contact.surname
       (createContactOnGraph_body (lit "  Marie   Sklodowska	Curie ") [] [])
     = lit "Sklodowska Curie".
Proof. split; vm_compute; reflexivity. Qed.

(** C9. The [displayName] of the contact is never empty: it is the display
    name given when that is not empty, otherwise the email when that is
    not empty, otherwise [Nouveau contact]. *)
Theorem createContactOnGraph_displayName (displayName email phone : jsstring) :
  let body := createContactOnGraph_body displayName email phone in
  truthy (Contact.displayName body) = true
  /\ Contact.displayName body <> []
  /\ Contact.displayName body
     = if truthy displayName then displayName
       else if truthy email then email
       else lit "Nouveau contact".
Proof.
  cbv zeta.
  assert (E : Contact.displayName (createContactOnGraph_body displayName email phone)
              = if truthy displayName then displayName
                else if truthy email then email
                else lit "Nouveau contact").
  { unfold createContactOnGraph_body.
    destruct (2 <=? length (tokens_of (or_else displayName [])))%nat; reflexivity. }
  rewrite E.
  destruct displayName as [|c d]; [destruct email as [|c e]|];
    cbn [truthy]; (split; [reflexivity|split; [discriminate|reflexivity]]).
Qed.

(** * Further properties of the code *)

(** ** htmlToText: what its result never holds *)

Lemma trimEnd_ends s : ends_with_space (trimEnd s) = false.
Proof.
  unfold ends_with_space. induction s as [|c s IH]; [reflexivity|].
  cbn [trimEnd]. destruct (trimEnd s) as [|x t] eqn:E.
  - destruct (is_space c) eqn:Hc; [reflexivity|]. cbn. exact Hc.
  - cbn [rev] in *. destruct (rev t ++ [x]) as [|y u] eqn:Er.
    + destruct (rev t); discriminate.
    + exact IH.
Qed.

Lemma trim_starts s : starts_with_space (trim s) = false.
Proof.
  unfold trim, trimStart.
  destruct (drop_while is_space s) as [|c v] eqn:E; [reflexivity|].
  apply drop_while_head in E. rewrite trimEnd_cons by exact E. exact E.
Qed.

(** X1. The result of [htmlToText] is trimmed: it neither starts nor ends
    with a white-space character (a newline left by a tag included), and
    trimming it again changes nothing. *)
Theorem htmlToText_trimmed (html : jsstring) :
  starts_with_space (htmlToText html) = false
  /\ ends_with_space (htmlToText html) = false
  /\ trim (htmlToText html) = htmlToText html.
Proof.
  unfold htmlToText. split; [apply trim_starts|].
  split; [apply trimEnd_ends|apply trim_idempotent].
Qed.

Lemma no_double_nl_occurs s : no_double_nl s = true -> ~ occurs [NL; NL] s.
Proof.
  intros H (a & b & ->). apply no_double_nl_app_r in H.
  cbn in H. discriminate.
Qed.

(** X2. The result of [htmlToText] never holds two newlines in a row: the
    lines of the text are separated by exactly one newline, whatever the
    number of tags between them. *)
Theorem htmlToText_single_newlines (html : jsstring) :
  ~ occurs [NL; NL] (htmlToText html).
Proof.
  apply no_double_nl_occurs. unfold htmlToText.
  apply trim_no_double_nl, collapse_newlines_no_double.
Qed.

(** X3. A style block or a script block (opening and closing texts in any
    case) whose contents hold no [<], standing after a text that holds no
    [<], leaves nothing in the result: [htmlToText] gives what it gives on
    the text without the block. *)
Theorem htmlToText_block_removed (pre O x C post : jsstring) :
  ~ In LT pre -> ~ In LT x ->
  (ci_text O (lit "<style") /\ ci_text C (lit "</style>"))
  \/ (ci_text O (lit "<script") /\ ci_text C (lit "</script>")) ->
  htmlToText (pre ++ O ++ x ++ C ++ post) = htmlToText (pre ++ post).
Proof.
  intros Hpre Hx [[HO HC]|[HO HC]].
  - apply htmlToText_style_block_removed; assumption.
  - apply htmlToText_script_block_removed; assumption.
Qed.

Lemma htmlToText_block_removed_witness :
  htmlToText (lit "Bonjour " ++ lit "<STYLE" ++ lit " type=x>p{color:red}"
              ++ lit "</Style>" ++ lit "<p>Marie Curie</p>")
  = htmlToText (lit "Bonjour " ++ lit "<p>Marie Curie</p>")
  /\ htmlToText (lit "Bonjour " ++ lit "<Script" ++ lit ">var t = 1;"
                 ++ lit "</SCRIPT>" ++ lit "<p>Marie Curie</p>")
     = htmlToText (lit "Bonjour " ++ lit "<p>Marie Curie</p>").
Proof.
  split; apply htmlToText_block_removed;
    try (vm_compute; intuition discriminate).
  - left. split; repeat constructor.
  - right. split; repeat constructor.
Defined.

(** ** extractPhoneFR and normalizePhone *)

Lemma filter_filter_length {A} (f g : A -> bool) l :
  (length (filter f (filter g l)) <= length (filter f l))%nat.
Proof.
  induction l as [|x l IH]; [reflexivity|]. cbn [filter].
  destruct (g x), (f x) eqn:Ef; cbn [filter length]; rewrite ?Ef;
    cbn [length]; lia.
Qed.

Lemma lang_groups_digits n bef w aft :
  lang (Times n phone_group) bef w aft ->
  (2 * n <= length (filter is_digit w))%nat.
Proof.
  intros H. apply lang_groups in H. destruct H as [Hlen Hdig].
  rewrite <- Hlen.
  rewrite <- (forallb_filter_id is_digit (filter not_sep w)) at 1
    by exact Hdig.
  apply filter_filter_length.
Qed.

(** Every text that the phone expression matches holds ten digits or
    more. *)
Lemma lang_phone_digits bef w aft :
  lang phone_re bef w aft -> (10 <= length (filter is_digit w))%nat.
Proof.
  intros (wp & w1 & -> & Hp
          & (wd & w2 & -> & (d & -> & Hd) & (wg & wb & -> & Hg & (-> & _)))).
  apply lang_groups_digits in Hg.
  rewrite !filter_app, !length_app. cbn [filter].
  rewrite (nonzero_digit d Hd). cbn [length].
  assert (1 <= length (filter is_digit wp))%nat; [|lia].
  destruct Hp as [(wa & wb & -> & Ht & _)|(wa & wb & -> & _ & Ht)];
    apply lang_Text in Ht; subst; rewrite filter_app, length_app.
  - change (length (filter is_digit (lit "+33"))) with 2%nat. lia.
  - cbn. lia.
Qed.

(** X4. A text with fewer than ten digits holds no phone number for
    [extractPhoneFR]: the result is the empty string. *)
Theorem extractPhoneFR_few_digits (text : jsstring) :
  (length (filter is_digit text) < 10)%nat -> extractPhoneFR text = [].
Proof.
  intros H. unfold extractPhoneFR.
  destruct (match_first phone_re text) as [m|] eqn:Hm; [|reflexivity].
  apply match_first_sound in Hm. destruct Hm as (pre & aft & -> & L).
  apply lang_phone_digits in L.
  rewrite !filter_app, !length_app in H. lia.
Qed.

Lemma extractPhoneFR_few_digits_witness :
  extractPhoneFR (lit "Bureau 2, tel 06 12 34 56") = [].
Proof.
  apply extractPhoneFR_few_digits. vm_compute. lia.
Defined.

Lemma forallb_filter {A} (f : A -> bool) l : forallb f (filter f l) = true.
Proof.
  induction l as [|x l IH]; [reflexivity|]. cbn [filter].
  destruct (f x) eqn:E; [cbn [forallb]; rewrite E|]; exact IH.
Qed.

(** X5. [normalizePhone] is idempotent, and its result holds no separator
    (white space, dot or hyphen), whatever the text it is given. *)
Theorem normalizePhone_idempotent (raw : jsstring) :
  normalizePhone (normalizePhone raw) = normalizePhone raw
  /\ forallb not_sep (normalizePhone raw) = true.
Proof.
  assert (Hq : forallb not_sep (normalizePhone raw) = true).
  { unfold normalizePhone. rewrite replace_class_empty. fold not_sep.
    pose proof (forallb_filter not_sep raw) as Hp.
    destruct (startsWith (filter not_sep raw) (lit "+33")); [|exact Hp].
    change (lit "0" ++ ?s) with (48 :: s). cbn [forallb].
    rewrite (forallb_skipn not_sep 3 _ Hp). reflexivity. }
  split; [|exact Hq].
  unfold normalizePhone at 1. rewrite replace_class_empty. fold not_sep.
  rewrite (forallb_filter_id not_sep _ Hq).
  unfold normalizePhone in *. rewrite replace_class_empty in *.
  fold not_sep in *.
  destruct (startsWith (filter not_sep raw) (lit "+33")) eqn:E.
  - reflexivity.
  - rewrite E. reflexivity.
Qed.

Lemma extractPhoneFR_cases text :
  extractPhoneFR text = [] \/ canonical_phone (extractPhoneFR text).
Proof.
  unfold extractPhoneFR.
  destruct (match_first phone_re text) as [m|] eqn:Hm; [|left; reflexivity].
  right. apply match_first_sound in Hm. destruct Hm as (pre & aft & _ & L).
  exact (normalizePhone_of_match _ _ _ L).
Qed.

(** A number in canonical form is a valid number without separators. *)
Lemma canonical_phone_number p :
  canonical_phone p ->
  exists n, fr_valid n = true /\ fr_render n = p /\ fr_canonical n = p.
Proof.
  intros (d & ds & -> & Hd & Hlen & Hds).
  destruct ds as [|a1 [|b1 [|a2 [|b2 [|a3 [|b3 [|a4 [|b4 [|]]]]]]]]];
    try discriminate.
  cbn [forallb] in Hds. rewrite !andb_true_iff in Hds.
  destruct Hds as (H1 & H2 & H3 & H4 & H5 & H6 & H7 & H8 & _).
  exists {| fr_prefix := Local; fr_first := d;
            fr_groups := [ {| g_sep := None; g_hi := a1; g_lo := b1 |};
                           {| g_sep := None; g_hi := a2; g_lo := b2 |};
                           {| g_sep := None; g_hi := a3; g_lo := b3 |};
                           {| g_sep := None; g_hi := a4; g_lo := b4 |} ] |}.
  split; [|split; reflexivity].
  unfold fr_valid, fr_group_ok.
  cbn [fr_first fr_groups g_sep g_hi g_lo forallb length fr_sep_ok Nat.eqb].
  rewrite Hd, H1, H2, H3, H4, H5, H6, H7, H8. reflexivity.
Qed.

Lemma extractPhoneFR_number_alone n :
  fr_valid n = true -> extractPhoneFR (fr_render n) = fr_canonical n.
Proof.
  intros Hn. unfold extractPhoneFR, match_first, search.
  rewrite <- (app_nil_r (fr_render n)) at 1.
  rewrite (search_from_hit _ _ _ (length (fr_render n))).
  - cbn [option_map fst].
    rewrite firstn_app, Nat.sub_diag, firstn_all, app_nil_r.
    apply normalizePhone_number. exact Hn.
  - apply match_len_of_match_at.
    apply match_at_number; [exact Hn|reflexivity|reflexivity].
Qed.

(** X6. [extractPhoneFR] is idempotent: the number it returns is itself a
    text in which it finds this same number (and the empty result gives the
    empty result). *)
Theorem extractPhoneFR_idempotent (text : jsstring) :
  extractPhoneFR (extractPhoneFR text) = extractPhoneFR text.
Proof.
  destruct (extractPhoneFR_cases text) as [->|H]; [reflexivity|].
  apply canonical_phone_number in H. destruct H as (n & Hn & Hr & Hc).
  rewrite <- Hr at 1. rewrite <- Hc. apply extractPhoneFR_number_alone, Hn.
Qed.

(** ** guessFullName *)

Lemma split_char_incl sep s p : In p (split_char sep s) -> incl p s.
Proof.
  revert p. induction s as [|c s IH]; intros p H.
  - destruct H as [<-|[]]. apply incl_refl.
  - cbn [split_char] in H. destruct (c =? sep).
    + destruct H as [<-|H]; [intros x []|].
      apply incl_tl, IH, H.
    + destruct (split_char sep s) as [|q qs] eqn:E.
      * destruct H as [<-|[]]. intros x [<-|[]]. left. reflexivity.
      * destruct H as [<-|H].
        -- apply incl_cons; [left; reflexivity|].
           apply incl_tl, IH. left. reflexivity.
        -- apply incl_tl, IH. right. exact H.
Qed.

Lemma split_char_no_sep sep s p : In p (split_char sep s) -> ~ In sep p.
Proof.
  revert p. induction s as [|c s IH]; intros p H.
  - destruct H as [<-|[]]. intros [].
  - cbn [split_char] in H. destruct (N.eqb_spec c sep) as [->|Hc].
    + destruct H as [<-|H]; [intros []|apply IH, H].
    + destruct (split_char sep s) as [|q qs] eqn:E.
      * destruct H as [<-|[]]. intros [E'|[]]. congruence.
      * destruct H as [<-|H].
        -- intros [E'|Hin]; [congruence|].
           exact (IH q (or_introl eq_refl) Hin).
        -- apply IH. right. exact H.
Qed.

Lemma trim_incl s : incl (trim s) s.
Proof.
  unfold trim.
  destruct (trimStart_suffix s) as [a Ha].
  destruct (trimEnd_prefix (trimStart s)) as [b Hb].
  intros x Hx. rewrite Ha. apply in_or_app. right.
  rewrite Hb. apply in_or_app. left. exact Hx.
Qed.

Lemma text_lines_inv text l :
  In l (text_lines text) ->
  exists piece, In piece (split_char NL text) /\ l = trim piece /\ l <> [].
Proof.
  unfold text_lines. rewrite filter_In, in_map_iff.
  intros [(piece & <- & Hp) Ht]. exists piece.
  split; [exact Hp|]. split; [reflexivity|].
  destruct (trim piece); [discriminate|discriminate].
Qed.

(** X7. Every line that [guessFullName] looks at is clean: it is not
    empty, holds no newline, and neither starts nor ends with white
    space. *)
Theorem text_lines_clean (text l : jsstring) :
  In l (text_lines text) ->
  l <> [] /\ ~ In NL l /\ trim l = l
  /\ starts_with_space l = false /\ ends_with_space l = false.
Proof.
  intros H. apply text_lines_inv in H. destruct H as (piece & Hp & -> & Hne).
  split; [exact Hne|]. split.
  - intros Hin. apply trim_incl in Hin.
    exact (split_char_no_sep _ _ _ Hp Hin).
  - split; [apply trim_idempotent|].
    split; [apply trim_starts|apply trimEnd_ends].
Qed.

Lemma text_lines_clean_witness :
  let l := lit "Jean Dupont" in
  l <> [] /\ ~ In NL l /\ trim l = l
  /\ starts_with_space l = false /\ ends_with_space l = false.
Proof.
  apply (text_lines_clean (text_of [lit "Cordialement "; lit "  Jean Dupont	"])).
  vm_compute. right. left. reflexivity.
Defined.

Lemma incl_firstn {A} n (l : list A) : incl (firstn n l) l.
Proof.
  revert l. induction n as [|n IH]; intros l; [intros x []|].
  destruct l as [|y l]; [intros x []|]. cbn [firstn].
  apply incl_cons; [left; reflexivity|]. apply incl_tl, IH.
Qed.

Lemma incl_skipn {A} n (l : list A) : incl (skipn n l) l.
Proof.
  revert l. induction n as [|n IH]; intros l; [apply incl_refl|].
  destruct l as [|y l]; [intros x []|]. cbn [skipn]. apply incl_tl, IH.
Qed.

Lemma candidate_window_incl lines : incl (candidate_window lines) lines.
Proof.
  unfold candidate_window, slice, slice_last.
  destruct (_ && _)%bool.
  - eapply incl_tran; [apply incl_firstn|apply incl_skipn].
  - apply incl_skipn.
Qed.

Lemma candidate_window_length lines :
  (length (candidate_window lines) <= 6)%nat.
Proof.
  unfold candidate_window, slice, slice_last.
  destruct (Z.leb_spec 0 (findIndex (test boundary_re) lines));
    destruct (Z.ltb_spec (findIndex (test boundary_re) lines)
                         (Z.of_nat (length lines) - 1)); cbn [andb];
    rewrite ?length_firstn, ?length_skipn; lia.
Qed.

Lemma first_name_like_cases w fb :
  first_name_like w fb = fb
  \/ (In (first_name_like w fb) w /\ Qualifies (first_name_like w fb)).
Proof.
  induction w as [|x w IH]; cbn [first_name_like].
  - left. apply or_else_empty.
  - destruct (name_like x) eqn:E.
    + right. split; [left; reflexivity|apply name_like_iff, E].
    + destruct IH as [IH|[IH1 IH2]]; [left; exact IH|].
      right. split; [right; exact IH1|exact IH2].
Qed.

(** X8. [guessFullName] never invents a name: its result is the fallback,
    or one of the (trimmed, non-empty) lines of the text, and this line
    then qualifies as a name. The lines it chooses from are at most 6. *)
Theorem guessFullName_from_text (text fallback : jsstring) :
  (guessFullName text fallback = fallback
   \/ (In (guessFullName text fallback) (text_lines text)
       /\ Qualifies (guessFullName text fallback)))
  /\ (length (candidate_window (text_lines text)) <= 6)%nat.
Proof.
  split; [|apply candidate_window_length].
  unfold guessFullName.
  destruct (first_name_like_cases (candidate_window (text_lines text)) fallback)
    as [H|[H1 H2]]; [left; exact H|].
  right. split; [|exact H2]. apply candidate_window_incl, H1.
Qed.

(** X9. A name that stands more than 5 lines after the first signature
    boundary is never returned: when none of the 5 lines that follow the
    boundary qualifies, the result is the fallback, whatever the lines
    after them are. *)
Theorem guessFullName_window_ends
    (text fallback : jsstring) (before : list jsstring) (b : jsstring)
    (mid rest : list jsstring) :
  text_lines text = before ++ b :: mid ++ rest ->
  (forall x, In x before -> ~ Boundary x) ->
  Boundary b ->
  length mid = 5%nat ->
  (forall x, In x mid -> ~ Qualifies x) ->
  guessFullName text fallback = fallback.
Proof.
  intros E Hbefore Hb Hlen Hmid. unfold guessFullName. rewrite E.
  rewrite candidate_window_after_boundary;
    [|intros x Hx; apply not_boundary, Hbefore, Hx
     |apply test_boundary_iff, Hb
     |destruct mid; discriminate].
  rewrite firstn_app, Hlen, Nat.sub_diag, firstn_O, app_nil_r.
  rewrite <- Hlen, firstn_all.
  apply first_name_like_none. exact Hmid.
Qed.

Lemma guessFullName_window_ends_witness :
  guessFullName
    (text_of [lit "Bonjour,"; lit "--"; lit "a"; lit "b"; lit "c"; lit "d";
              lit "e"; lit "Jean Dupont"])
    (lit "Mx")
  = lit "Mx".
Proof.
  apply (guessFullName_window_ends _ _ [lit "Bonjour,"] (lit "--")
           [lit "a"; lit "b"; lit "c"; lit "d"; lit "e"] [lit "Jean Dupont"]).
  - vm_compute. reflexivity.
  - intros x [<-|[]] H. apply test_boundary_iff in H. vm_compute in H.
    discriminate.
  - left. split; [simpl; lia|reflexivity].
  - reflexivity.
  - intros x [<-|[<-|[<-|[<-|[<-|[]]]]]]; vm_compute; lia.
Defined.




Lemma all_space_trim p : forallb is_space p = true -> trim p = [].
Proof.
  intros H. unfold trim, trimStart.
  replace (drop_while is_space p) with (@nil char); [reflexivity|].
  induction p as [|c p IH]; [reflexivity|].
  cbn [forallb] in H. apply andb_true_iff in H. destruct H as [Hc Hp].
  cbn [drop_while]. rewrite Hc. apply IH, Hp.
Qed.

(** X11. On a text made of white space only (the empty text included)
    [guessFullName] has no line to look at and returns the fallback. *)
Theorem guessFullName_blank_text (text fallback : jsstring) :
  forallb is_space text = true -> guessFullName text fallback = fallback.
Proof.
  intros H. unfold guessFullName.
  assert (E : text_lines text = []).
  { destruct (text_lines text) as [|l ls] eqn:E; [reflexivity|exfalso].
    assert (Hl : In l (text_lines text)) by (rewrite E; left; reflexivity).
    apply text_lines_inv in Hl. destruct Hl as (piece & Hp & -> & Hne).
    apply Hne, all_space_trim. rewrite forallb_forall in *.
    intros x Hx. apply H. exact (split_char_incl _ _ _ Hp x Hx). }
  rewrite E. apply or_else_empty.
Qed.

Lemma guessFullName_blank_text_witness :
  guessFullName (text_of [lit "  "; lit ""; lit " "]) (lit "Mx") = lit "Mx".
Proof.
  apply guessFullName_blank_text. vm_compute. reflexivity.
Defined.

(** ** createContactOnGraph *)

Lemma words_from_token w : forall cur s,
  forallb (fun c => negb (is_space c)) w = true ->
  words_from cur (w ++ s) = words_from (rev w ++ cur) s.
Proof.
  induction w as [|c w IH]; intros cur s H; [reflexivity|].
  cbn [forallb] in H. apply andb_true_iff in H. destruct H as [Hc Hw].
  apply negb_true_iff in Hc. cbn [app words_from]. rewrite Hc.
  rewrite IH by exact Hw. cbn [rev]. rewrite <- app_assoc. reflexivity.
Qed.

Lemma words_of_token w : is_token w = true -> words w = [w].
Proof.
  unfold is_token, words. intros H. apply andb_true_iff in H.
  destruct H as [Ht Hw].
  rewrite <- (app_nil_r w) at 1. rewrite words_from_token by exact Hw.
  rewrite app_nil_r. cbn [words_from].
  destruct (rev w) eqn:E.
  - apply (f_equal (@rev _)) in E. rewrite rev_involutive in E. subst.
    discriminate.
  - rewrite <- E, rev_involutive. reflexivity.
Qed.

(** Joining tokens with one space and splitting again gives the tokens. *)
Lemma words_join ws :
  forallb is_token ws = true -> words (join (lit " ") ws) = ws.
Proof.
  induction ws as [|w rest IH]; intros H; [reflexivity|].
  cbn [forallb] in H. apply andb_true_iff in H. destruct H as [Hw Hrest].
  destruct rest as [|w' rest].
  - apply words_of_token, Hw.
  - change (join (lit " ") (w :: w' :: rest))
      with (w ++ 32 :: join (lit " ") (w' :: rest)).
    unfold is_token in Hw. apply andb_true_iff in Hw. destruct Hw as [Ht Hs].
    unfold words in *. rewrite words_from_token by exact Hs.
    rewrite app_nil_r. cbn [words_from].
    change (is_space 32) with true. cbn iota.
    destruct (rev w) eqn:E.
    + apply (f_equal (@rev _)) in E. rewrite rev_involutive in E. subst.
      discriminate.
    + rewrite <- E, rev_involutive. rewrite IH by exact Hrest. reflexivity.
Qed.

Lemma forallb_rev {A} (f : A -> bool) l :
  forallb f l = true -> forallb f (rev l) = true.
Proof.
  rewrite !forallb_forall. intros H x Hx. apply H, in_rev, Hx.
Qed.

Lemma words_from_tokens s : forall cur,
  forallb (fun c => negb (is_space c)) cur = true ->
  forallb is_token (words_from cur s) = true.
Proof.
  induction s as [|c s IH]; intros cur H; cbn [words_from].
  - destruct cur as [|x cur]; [reflexivity|]. cbn [forallb].
    unfold is_token. rewrite truthy_rev_cons, (forallb_rev _ _ H). reflexivity.
  - destruct (is_space c) eqn:Hc.
    + destruct cur as [|x cur]; [apply IH; reflexivity|]. cbn [forallb].
      unfold is_token at 1.
      rewrite truthy_rev_cons, (forallb_rev _ _ H). apply IH. reflexivity.
    + apply IH. cbn [forallb]. rewrite Hc. exact H.
Qed.

Lemma words_tokens s : forallb is_token (words s) = true.
Proof. apply words_from_tokens. reflexivity. Qed.

(** X12. When the full name has two words or more, [givenName] is one
    token (not empty, no white space), and [givenName], a space and
    [surname] together read as the full name with every run of white space
    turned into one space: splitting them gives the words of the full
    name. *)
Theorem createContactOnGraph_names_rejoin (displayName email phone : jsstring) :
  (2 <= length (words displayName))%nat ->
  let body := createContactOnGraph_body displayName email phone in
  is_token (Contact.givenName body) = true
  /\ words (Contact.surname body) = skipn 1 (words displayName)
  /\ words (Contact.givenName body ++ lit " " ++ Contact.surname body)
     = words displayName.
Proof.
  intros H. cbv zeta. unfold createContactOnGraph_body.
  rewrite or_else_empty, tokens_of_words.
  destruct (Nat.leb_spec 2 (length (words displayName))) as [_|H']; [|lia].
  cbn [Contact.with_names Contact.givenName Contact.surname].
  pose proof (words_tokens displayName) as Ht.
  destruct (words displayName) as [|w [|w' rest]]; cbn [length] in H; try lia.
  cbn [nth skipn]. cbn [forallb] in Ht. apply andb_true_iff in Ht.
  destruct Ht as [Hw Hrest].
  split; [exact Hw|]. split; [apply words_join, Hrest|].
  change (w ++ lit " " ++ join (lit " ") (w' :: rest))
    with (join (lit " ") (w :: w' :: rest)).
  apply words_join. cbn [forallb]. rewrite Hw. exact Hrest.
Qed.

Lemma createContactOnGraph_names_rejoin_witness :
  let body := createContactOnGraph_body (lit " Marie   Sklodowska  Curie ") [] [] in
  is_token (Contact.givenName body) = true
  /\ words (Contact.surname body)
     = skipn 1 (words (lit " Marie   Sklodowska  Curie "))
  /\ words (Contact.givenName body ++ lit " " ++ Contact.surname body)
     = words (lit " Marie   Sklodowska  Curie ").
Proof.
  apply createContactOnGraph_names_rejoin. vm_compute. lia.
Defined.

(** X13. The contact holds at most one e-mail address and at most one
    phone; an e-mail entry has a non-empty address and a non-empty name,
    a phone entry is not empty. There is an e-mail entry exactly when the
    e-mail given is not empty, a phone entry exactly when the phone given
    is not empty. *)
Theorem createContactOnGraph_entries (displayName email phone : jsstring) :
  let body := createContactOnGraph_body displayName email phone in
  length (Contact.emailAddresses body) = (if truthy email then 1 else 0)%nat
  /\ length (Contact.businessPhones body) = (if truthy phone then 1 else 0)%nat
  /\ forallb (fun a => truthy (Contact.address a) && truthy (Contact.name a))
       (Contact.emailAddresses body) = true
  /\ forallb truthy (Contact.businessPhones body) = true.
Proof.
  cbv zeta. unfold createContactOnGraph_body.
  destruct (2 <=? length (tokens_of (or_else displayName [])))%nat;
    cbn [Contact.with_names Contact.emailAddresses Contact.businessPhones];
    destruct email as [|e email], phone as [|p phone],
      displayName as [|d displayName]; repeat split; reflexivity.
Qed.

(** ** scanAndFill, getSenderEmailAndName and createContact *)

(** What [scanAndFill] writes, field by field. *)
Lemma scanAndFill_fields html sender form :
  let text := htmlToText html in
  let name := guessFullName text (sender_name sender) in
  let number := extractPhoneFR text in
  scanAndFill (Some html) sender form
  = {| Form.fullName := if truthy name then name else Form.fullName form;
       Form.email :=
         if truthy (sender_email sender) then sender_email sender
         else Form.email form;
       Form.phone := if truthy number then number else Form.phone form |}.
Proof.
  cbv zeta. unfold scanAndFill, getItemBodyText. cbv zeta.
  rewrite or_else_empty.
  destruct (guessFullName (htmlToText html) (sender_name sender)),
    (sender_email sender), (extractPhoneFR (htmlToText html)), form;
    reflexivity.
Qed.

(** X14. A scan never clears a field of the form: each field keeps its
    value or takes a value that is not empty. When the body cannot be read
    the form is left as it is. *)
Theorem scanAndFill_never_clears
    (res : option jsstring) (sender : Sender) (form : Form.t) :
  let form' := scanAndFill res sender form in
  (Form.fullName form' = Form.fullName form
   \/ truthy (Form.fullName form') = true)
  /\ (Form.email form' = Form.email form \/ truthy (Form.email form') = true)
  /\ (Form.phone form' = Form.phone form \/ truthy (Form.phone form') = true)
  /\ scanAndFill None sender form = form.
Proof.
  cbv zeta. destruct res as [html|]; [|cbn; auto].
  rewrite scanAndFill_fields. cbv zeta. cbn [Form.fullName Form.email Form.phone].
  split; [|split; [|split; [|reflexivity]]].
  - destruct (truthy (guessFullName _ _)) eqn:E; auto.
  - destruct (truthy (sender_email sender)) eqn:E; auto.
  - destruct (truthy (extractPhoneFR _)) eqn:E; auto.
Qed.

(** X15. Scanning the same message twice gives the same form as scanning
    it once. *)
Theorem scanAndFill_idempotent
    (res : option jsstring) (sender : Sender) (form : Form.t) :
  scanAndFill res sender (scanAndFill res sender form)
  = scanAndFill res sender form.
Proof.
  destruct res as [html|]; [|reflexivity].
  rewrite !scanAndFill_fields. cbv zeta.
  cbn [Form.fullName Form.email Form.phone].
  destruct (truthy (guessFullName _ _)), (truthy (sender_email sender)),
    (truthy (extractPhoneFR _)); reflexivity.
Qed.

(** X16. After a scan the phone field holds the value it had before, or a
    number in the canonical local format (ten digits, the first one 0). *)
Theorem scanAndFill_phone_canonical
    (res : option jsstring) (sender : Sender) (form : Form.t) :
  Form.phone (scanAndFill res sender form) = Form.phone form
  \/ canonical_phone (Form.phone (scanAndFill res sender form)).
Proof.
  destruct res as [html|]; [|left; reflexivity].
  rewrite scanAndFill_fields. cbv zeta. cbn [Form.phone].
  destruct (extractPhoneFR_cases (htmlToText html)) as [E|H].
  - rewrite E. left. reflexivity.
  - destruct (truthy (extractPhoneFR (htmlToText html))); auto.
Qed.

(** X17. A message without sender: [getSenderEmailAndName] gives two empty
    strings, so that a scan leaves the e-mail field as it is, and changes
    the full-name field only for a line of the body that qualifies as a
    name. *)
Theorem scanAndFill_no_sender (res : option jsstring) (form : Form.t) :
  let form' := scanAndFill res (getSenderEmailAndName None) form in
  Form.email form' = Form.email form
  /\ (Form.fullName form' = Form.fullName form
      \/ Qualifies (Form.fullName form')).
Proof.
  cbv zeta. destruct res as [html|]; [|cbn; auto].
  rewrite scanAndFill_fields. cbv zeta. cbn [Form.fullName Form.email].
  split; [reflexivity|].
  change (sender_name (getSenderEmailAndName None)) with (@nil char).
  unfold guessFullName.
  destruct (first_name_like_cases
              (candidate_window (text_lines (htmlToText html))) [])
    as [E|[_ Hq]].
  - rewrite E. left. reflexivity.
  - destruct (truthy (first_name_like _ _)); auto.
Qed.

Lemma trim_token_like s :
  forallb (fun c => negb (is_space c)) s = true -> trim s = s.
Proof.
  intros H. unfold trim, trimStart.
  assert (E : drop_while is_space s = s).
  { destruct s as [|c s]; [reflexivity|]. cbn [forallb] in H.
    apply andb_true_iff in H. destruct H as [Hc _].
    apply negb_true_iff in Hc. cbn [drop_while]. rewrite Hc. reflexivity. }
  rewrite E. clear E. induction s as [|c s IH]; [reflexivity|].
  cbn [forallb] in H. apply andb_true_iff in H. destruct H as [Hc Hs].
  apply negb_true_iff in Hc. rewrite trimEnd_cons by exact Hc.
  rewrite IH by exact Hs. reflexivity.
Qed.

Lemma canonical_phone_trim p : canonical_phone p -> trim p = p /\ truthy p = true.
Proof.
  intros (d & ds & -> & Hd & _ & Hds). split; [|reflexivity].
  apply trim_token_like. cbn [forallb].
  assert (Hdig : forall c, is_digit c = true -> negb (is_space c) = true)
    by (intros c Hc; apply negb_true_iff; clear - Hc; charb).
  rewrite (Hdig d (nonzero_digit d Hd)).
  change (negb (is_space 48)) with true. cbn [andb].
  rewrite forallb_forall in *. auto.
Qed.

(** X18. From the scan to the contact: when [extractPhoneFR] finds a
    number in the body, the contact built from the form just after the
    scan has this number as its only phone. *)
Theorem createContact_phone_of_scan
    (html : jsstring) (sender : Sender) (form : Form.t) :
  extractPhoneFR (htmlToText html) <> [] ->
  Contact.businessPhones
    (createContact_body (scanAndFill (Some html) sender form))
  = [extractPhoneFR (htmlToText html)].
Proof.
  intros Hne.
  destruct (extractPhoneFR_cases (htmlToText html)) as [E|H]; [congruence|].
  apply canonical_phone_trim in H. destruct H as [Htrim Ht].
  rewrite scanAndFill_fields. cbv zeta. rewrite Ht.
  unfold createContact_body. cbn [Form.phone]. rewrite Htrim.
  unfold createContactOnGraph_body.
  destruct (2 <=? length _)%nat;
    cbn [Contact.with_names Contact.businessPhones]; rewrite Ht; reflexivity.
Qed.

Lemma createContact_phone_of_scan_witness :
  Contact.businessPhones
    (createContact_body
       (scanAndFill (Some scenario_html) scenario_sender
          {| Form.fullName := []; Form.email := []; Form.phone := lit "?" |}))
  = [extractPhoneFR (htmlToText scenario_html)].
Proof.
  apply createContact_phone_of_scan. vm_compute. discriminate.
Defined.

(** X19. From the scan to the contact: when a line of the candidate window
    qualifies as a name, the contact built from the form just after the
    scan has the name found as its [displayName], a [givenName] that is
    one token, and a [surname] that is not empty. *)
Theorem createContact_name_of_scan
    (html : jsstring) (sender : Sender) (form : Form.t) :
  (exists l, In l (candidate_window (text_lines (htmlToText html)))
             /\ Qualifies l) ->
  let name := guessFullName (htmlToText html) (sender_name sender) in
  let body := createContact_body (scanAndFill (Some html) sender form) in
  Contact.displayName body = name
  /\ is_token (Contact.givenName body) = true
  /\ truthy (Contact.surname body) = true.
Proof.
  intros H. cbv zeta. apply first_qualifying_split in H.
  destruct H as (w1 & l & w2 & E & H1 & Hl).
  assert (En : guessFullName (htmlToText html) (sender_name sender) = l).
  { unfold guessFullName. rewrite E. apply first_name_like_first; assumption. }
  assert (Hin : In l (text_lines (htmlToText html))).
  { apply candidate_window_incl. rewrite E. apply in_or_app. right. left.
    reflexivity. }
  apply text_lines_inv in Hin. destruct Hin as (piece & _ & Hp & Hne).
  assert (Htrim : trim l = l) by (rewrite Hp; apply trim_idempotent).
  assert (Ht : truthy l = true) by (destruct l; [congruence|reflexivity]).
  rewrite scanAndFill_fields. cbv zeta. rewrite En, Ht.
  unfold createContact_body. cbn [Form.fullName]. rewrite Htrim.
  unfold createContactOnGraph_body. rewrite or_else_empty, tokens_of_words.
  destruct Hl as [[Hlen _] _].
  destruct (Nat.leb_spec 2 (length (words l))) as [_|H']; [|lia].
  cbn [Contact.with_names Contact.displayName Contact.givenName Contact.surname].
  pose proof (words_tokens l) as Hw.
  destruct (words l) as [|a [|b rest]]; cbn [length] in Hlen; try lia.
  cbn [forallb] in Hw. rewrite !andb_true_iff in Hw.
  destruct Hw as (Ha & Hb & _).
  split; [unfold or_else; rewrite Ht; reflexivity|].
  split; [exact Ha|]. cbn [skipn nth].
  unfold is_token in Hb. apply andb_true_iff in Hb. destruct Hb as [Hb _].
  destruct b; [discriminate|]. destruct rest; reflexivity.
Qed.

Lemma createContact_name_of_scan_witness :
  let name := guessFullName (htmlToText scenario_html)
                (sender_name scenario_sender) in
  let body := createContact_body
                (scanAndFill (Some scenario_html) scenario_sender
                   {| Form.fullName := []; Form.email := []; Form.phone := [] |}) in
  Contact.displayName body = name
  /\ is_token (Contact.givenName body) = true
  /\ truthy (Contact.surname body) = true.
Proof.
  apply createContact_name_of_scan.
  exists (lit "Marie Curie"). split.
  - vm_compute. left. reflexivity.
  - vm_compute. lia.
Defined.

(** ** htmlToText: tags *)

(** The characters of the result of a [replace] come from the text or from
    the replacement. *)
Lemma replace_from_incl r rep s : forall n bef,
  incl (replace_from r rep n bef s) (rep ++ s).
Proof.
  induction s as [|c s IH]; intros n bef; cbn [replace_from].
  - destruct n, (match_len r (mkpos bef [])); try (intros x []).
    rewrite app_nil_r. apply incl_refl.
  - assert (Hs : incl (rep ++ s) (rep ++ c :: s)).
    { apply incl_app; [apply incl_appl, incl_refl|].
      apply incl_appr, incl_tl, incl_refl. }
    assert (Hc : In c (rep ++ c :: s))
      by (apply in_or_app; right; left; reflexivity).
    destruct n as [|n]; [|exact (incl_tran (IH _ _) Hs)].
    destruct (match_len r (mkpos bef (c :: s))) as [[|m]|].
    + apply incl_app; [apply incl_appl, incl_refl|].
      apply incl_cons; [exact Hc|exact (incl_tran (IH _ _) Hs)].
    + apply incl_app; [apply incl_appl, incl_refl|].
      exact (incl_tran (IH _ _) Hs).
    + apply incl_cons; [exact Hc|exact (incl_tran (IH _ _) Hs)].
Qed.

Lemma has_tag_cases c t : has_tag (c :: t) -> tag_first (c :: t) \/ has_tag t.
Proof.
  intros (a & m & b & E & Hne & Hm). destruct a as [|x a].
  - left. exists m, b. auto.
  - right. injection E as _ E. exists a, m, b. auto.
Qed.

Lemma has_tag_suffix a t : has_tag t -> has_tag (a ++ t).
Proof.
  intros (a' & m & b & -> & H). exists (a ++ a'), m, b.
  rewrite <- app_assoc. auto.
Qed.

Lemma tag_first_head c t : tag_first (c :: t) -> c = LT.
Proof. intros (m & r & E & _). injection E as E _. exact E. Qed.

(** A [<] starts a tag unless it ends the text, stands before a [>], or
    has no [>] after it. *)
Lemma not_tag_first t :
  ~ tag_first (LT :: t) ->
  t = [] \/ (exists t', t = GT :: t') \/ ~ In GT t.
Proof.
  intros H. destruct t as [|x t]; [left; reflexivity|]. right.
  destruct (N.eq_dec x GT) as [->|Hx]; [left; eauto|]. right.
  intros Hin. destruct (first_GT _ Hin) as (m & r & E & Hm).
  apply H. exists m, r. rewrite E. split; [reflexivity|]. split; [|exact Hm].
  destruct m; [|discriminate]. injection E as E _. congruence.
Qed.

Lemma many_greedy_failing cls (k : cont) s : forall bef,
  (forall b c a, cls c = true -> k (mkpos b (c :: a)) = None) ->
  many_greedy cls k bef s
  = k (mkpos (rev (firstn (span cls s) s) ++ bef) (skipn (span cls s) s)).
Proof.
  induction s as [|c s IH]; intros bef Hk; cbn [many_greedy span]; [reflexivity|].
  destruct (cls c) eqn:Hc; [|reflexivity].
  rewrite IH by exact Hk. cbn [firstn skipn rev]. rewrite <- app_assoc.
  cbn [app].
  destruct (k _) eqn:E; [reflexivity|]. apply Hk, Hc.
Qed.

Lemma span_first_GT m r :
  ~ In GT m -> span (except GT) (m ++ GT :: r) = length m.
Proof.
  induction m as [|c m IH]; intros H.
  - reflexivity.
  - cbn [app span length]. unfold except at 1.
    destruct (N.eqb_spec c GT) as [->|_]; [exfalso; apply H; left; reflexivity|].
    cbn [negb]. f_equal. apply IH. intros Hin. apply H. right. exact Hin.
Qed.

(** The tag expression matches wherever a tag starts. *)
Lemma match_at_tag bef t :
  tag_first t -> match_at tag_re (mkpos bef t) <> None.
Proof.
  intros (m & r & -> & Hne & Hm). unfold match_at, tag_re, Plus, AtLeast.
  rewrite run_Seq, run_Chr_ok by apply N.eqb_refl.
  rewrite !run_Seq, run_Times_Chr, span_first_GT by exact Hm.
  destruct m as [|c m]; [congruence|]. cbn [length Nat.leb].
  cbn [run before after]. rewrite many_greedy_failing.
  - cbn [firstn skipn app]. rewrite span_first_GT
      by (intros Hin; apply Hm; right; exact Hin).
    rewrite skipn_app, skipn_all, Nat.sub_diag. cbn [skipn app after].
    replace (just GT GT) with true by reflexivity. discriminate.
  - intros b x a Hx. unfold except in Hx. apply negb_true_iff in Hx.
    cbn [after]. unfold just. rewrite Hx. reflexivity.
Qed.

Lemma replace_tag_no_GT s bef :
  ~ In GT s -> replace_from tag_re [NL] O bef s = s.
Proof.
  intros H. apply replace_from_none. intros b pre a ->.
  destruct (match_len tag_re (mkpos b a)) as [n|] eqn:E; [|reflexivity].
  apply match_len_sound in E. destruct E as (w & aft & -> & _ & L).
  apply lang_tag in L. destruct L as (m & r & -> & _).
  exfalso. apply H. apply in_or_app. right. right.
  apply in_or_app. left. apply in_or_app. right. left. reflexivity.
Qed.

Lemma replace_tag_head_other c s bef :
  c <> LT ->
  replace_from tag_re [NL] O bef (c :: s)
  = c :: replace_from tag_re [NL] O (c :: bef) s.
Proof.
  intros Hc. apply replace_from_step.
  destruct (match_len tag_re (mkpos bef (c :: s))) as [n|] eqn:E; [|reflexivity].
  apply match_len_sound in E. destruct E as (w & aft & Ew & _ & L).
  apply lang_tag in L. destruct L as (m & r & -> & _).
  injection Ew as Ew _. congruence.
Qed.

(** No tag is left by the replacement of the tags. *)
Lemma replace_tag_no_tag s : forall bef,
  ~ has_tag (replace_from tag_re [NL] O bef s).
Proof.
  remember (length s) as n eqn:Hn.
  assert (Hlen : (length s <= n)%nat) by lia. clear Hn. revert s Hlen.
  induction n as [|n IH]; intros s Hlen bef.
  - destruct s; [|simpl in Hlen; lia].
    cbn. intros (a & m & b & E & _). destruct a; discriminate.
  - destruct s as [|c s];
      [cbn; intros (a & m & b & E & _); destruct a; discriminate|].
    cbn [length] in Hlen.
    destruct (N.eq_dec c LT) as [->|Hc].
    + destruct (match_len tag_re (mkpos bef (LT :: s))) as [k|] eqn:E.
      * pose proof E as E'. apply match_len_sound in E'.
        destruct E' as (w & aft & Ew & Hk & L).
        apply lang_tag in L. destruct L as (m & r & -> & _).
        cbn [length] in Hk. cbn [replace_from]. rewrite E, <- Hk.
        injection Ew as Ew.
        rewrite replace_from_skip
          by (rewrite Ew, !length_app; cbn [length]; lia).
        cbn [app]. intros H. apply has_tag_cases in H. destruct H as [H|H].
        -- apply tag_first_head in H. discriminate.
        -- revert H. apply IH. rewrite length_skipn. lia.
      * rewrite replace_from_step by exact E.
        intros H. apply has_tag_cases in H. destruct H as [H|H];
          [|revert H; apply IH; lia].
        assert (Hnt : ~ tag_first (LT :: s)).
        { intros Ht. apply (match_at_tag bef) in Ht.
          unfold match_len in E. destruct (match_at tag_re _); congruence. }
        apply not_tag_first in Hnt. destruct Hnt as [->|[(t' & ->)|Hno]].
        -- destruct H as (m & r & Em & Hne & _).
           cbn in Em. injection Em as Em. destruct m; [congruence|discriminate].
        -- rewrite replace_tag_head_other in H by discriminate.
           destruct H as (m & r & Em & Hne & Hm). injection Em as Em.
           destruct m as [|x m]; [congruence|]. injection Em as Ex _.
           apply Hm. left. congruence.
        -- rewrite replace_tag_no_GT in H by exact Hno.
           destruct H as (m & r & Em & _). injection Em as ->.
           apply Hno. apply in_or_app. right. left. reflexivity.
    + rewrite replace_tag_head_other by exact Hc.
      intros H. apply has_tag_cases in H. destruct H as [H|H].
      * apply tag_first_head in H. contradiction.
      * revert H. apply IH. lia.
Qed.

Lemma collapse_newlines_GT s : In GT (collapse_newlines s) -> In GT s.
Proof.
  intros H. apply (replace_from_incl newlines_re [NL] s O []) in H.
  destruct H as [H|H]; [discriminate|exact H].
Qed.

Lemma collapse_newlines_tag_first s :
  tag_first (LT :: collapse_newlines s) -> tag_first (LT :: s).
Proof.
  intros (m' & r' & E & Hne & Hm'). injection E as E.
  assert (Hin : In GT s).
  { apply collapse_newlines_GT. rewrite E. apply in_or_app. right. left.
    reflexivity. }
  destruct (first_GT _ Hin) as (m & r & -> & Hm).
  exists m, r. split; [reflexivity|]. split; [|exact Hm].
  intros ->. cbn [app] in E.
  rewrite collapse_newlines_other in E by discriminate.
  destruct m' as [|x m']; [congruence|]. injection E as Ex _.
  apply Hm'. left. congruence.
Qed.

(** Collapsing the newlines makes no tag. *)
Lemma collapse_newlines_has_tag s :
  has_tag (collapse_newlines s) -> has_tag s.
Proof.
  remember (length s) as n eqn:Hn.
  assert (Hlen : (length s <= n)%nat) by lia. clear Hn. revert s Hlen.
  induction n as [|n IH]; intros s Hlen H.
  - destruct s; [|simpl in Hlen; lia].
    destruct H as (a & m & b & E & _). destruct a; discriminate.
  - destruct s as [|c s];
      [destruct H as (a & m & b & E & _); destruct a; discriminate|].
    cbn [length] in Hlen. destruct (N.eq_dec c NL) as [->|Hc].
    + rewrite collapse_newlines_nl in H. apply has_tag_cases in H.
      destruct H as [H|H]; [apply tag_first_head in H; discriminate|].
      apply IH in H.
      * rewrite <- skipn_span in H.
        rewrite <- (firstn_skipn (span (just NL) s) s).
        apply (has_tag_suffix (NL :: firstn (span (just NL) s) s)), H.
      * pose proof (drop_while_length (just NL) s). lia.
    + rewrite collapse_newlines_other in H by exact Hc.
      apply has_tag_cases in H. destruct H as [H|H].
      * pose proof (tag_first_head _ _ H) as ->.
        apply collapse_newlines_tag_first in H.
        destruct H as (m & r & E & Hm). exists [], m, r. auto.
      * apply (has_tag_suffix [c]), IH; [lia|exact H].
Qed.

(** Trimming makes no tag. *)
Lemma trim_has_tag s : has_tag (trim s) -> has_tag s.
Proof.
  unfold trim. intros (a & m & b & E & H).
  destruct (trimStart_suffix s) as [p Hp].
  destruct (trimEnd_prefix (trimStart s)) as [q Hq].
  rewrite Hp. apply has_tag_suffix. exists a, m, (b ++ q). split; [|exact H].
  rewrite Hq, E, <- !app_assoc. cbn [app]. rewrite <- app_assoc. reflexivity.
Qed.

(** X20. After the three markup passes of [htmlToText] (style blocks,
    script blocks, tags) the text holds no tag: no [<] is followed by one
    character or more other than [>] and then a [>]. What is replaced is
    not looked at again, but the newline written for a tag cannot make a
    new tag with the text around it. *)
Theorem strip_markup_no_tag (html : jsstring) : ~ has_tag (strip_markup html).
Proof. unfold strip_markup, replace. apply replace_tag_no_tag. Qed.

(** X21. If the text left by the markup passes holds none of the four
    entities, the result of [htmlToText] holds no tag: a tag in the plain
    text can only come from the decoding of an entity. *)
Theorem htmlToText_no_tag (html : jsstring) :
  ~ has_entity (strip_markup html) -> ~ has_tag (htmlToText html).
Proof.
  intros Hent H. unfold htmlToText in H.
  rewrite decode_entities_absent in H by exact Hent.
  apply trim_has_tag, collapse_newlines_has_tag in H.
  unfold strip_markup, replace in H. exact (replace_tag_no_tag _ _ H).
Qed.

Lemma htmlToText_no_tag_witness :
  htmlToText (lit "<div>a <<b>> c</div><p>1 <> 2</p>x < y")
  = text_of [lit "a "; lit "> c"; lit "1 <> 2"; lit "x < y"]
  /\ ~ has_tag (htmlToText (lit "<div>a <<b>> c</div><p>1 <> 2</p>x < y")).
Proof.
  split; [vm_compute; reflexivity|].
  apply htmlToText_no_tag.
  intros [H|[H|[H|H]]]; apply occurs_occursb in H; vm_compute in H;
    discriminate.
Defined.

(** ** guessFullName: the lines of a joined text *)

Lemma split_char_plain sep p : ~ In sep p -> split_char sep p = [p].
Proof.
  induction p as [|c p IH]; intros H; [reflexivity|].
  cbn [split_char]. destruct (N.eqb_spec c sep) as [->|_];
    [exfalso; apply H; left; reflexivity|].
  rewrite IH; [reflexivity|]. intros Hin. apply H. right. exact Hin.
Qed.

Lemma split_char_app_sep sep p s :
  ~ In sep p -> split_char sep (p ++ sep :: s) = p :: split_char sep s.
Proof.
  induction p as [|c p IH]; intros H.
  - cbn [app split_char]. rewrite N.eqb_refl. reflexivity.
  - cbn [app split_char]. destruct (N.eqb_spec c sep) as [->|_];
      [exfalso; apply H; left; reflexivity|].
    rewrite IH; [reflexivity|]. intros Hin. apply H. right. exact Hin.
Qed.

(** Splitting undoes joining, for pieces that do not hold the
    separator. *)
Lemma split_char_join sep ls :
  ls <> [] -> Forall (fun l => ~ In sep l) ls ->
  split_char sep (join [sep] ls) = ls.
Proof.
  induction ls as [|p ls IH]; intros Hne H; [congruence|].
  inversion H as [|? ? Hp Hls]; subst.
  destruct ls as [|q ls]; [apply split_char_plain, Hp|].
  change (join [sep] (p :: q :: ls)) with (p ++ sep :: join [sep] (q :: ls)).
  rewrite split_char_app_sep by exact Hp. f_equal.
  apply IH; [discriminate|exact Hls].
Qed.

(** X22. The lines that [guessFullName] works on, for a text made of the
    lines [ls] joined by newlines (none of them holding a newline), are
    the lines [ls] trimmed, the empty ones left out, in the same order. *)
Theorem text_lines_text_of (ls : list jsstring) :
  Forall (fun l => ~ In NL l) ls ->
  text_lines (text_of ls) = filter truthy (map trim ls).
Proof.
  intros H. unfold text_lines, text_of.
  destruct ls as [|p ls]; [reflexivity|].
  rewrite split_char_join by (discriminate || exact H). reflexivity.
Qed.

Lemma text_lines_text_of_witness :
  Forall (fun l => ~ In NL l) [lit "  Bonjour, "; lit " "; []; lit "Marie Curie"]
  /\ text_lines (text_of [lit "  Bonjour, "; lit " "; []; lit "Marie Curie"])
     = [lit "Bonjour,"; lit "Marie Curie"].
Proof.
  assert (H : Forall (fun l => ~ In NL l)
                [lit "  Bonjour, "; lit " "; []; lit "Marie Curie"]).
  { repeat constructor; intros Hin; vm_compute in Hin; intuition discriminate. }
  split; [exact H|]. rewrite (text_lines_text_of _ H). reflexivity.
Defined.

(** ** htmlToText: a body of white space *)

(** X23. For a body that holds only white space, [htmlToText] gives the
    empty text; [extractPhoneFR] then finds no phone number and
    [guessFullName] gives the fallback. *)
Theorem htmlToText_blank (html fallback : jsstring) :
  forallb is_space html = true ->
  htmlToText html = []
  /\ extractPhoneFR (htmlToText html) = []
  /\ guessFullName (htmlToText html) fallback = fallback.
Proof.
  intros H.
  assert (Hsp : forall c, In c html -> is_space c = true)
    by (apply forallb_forall; exact H).
  assert (E : htmlToText html = []).
  { unfold htmlToText.
    rewrite strip_markup_tagless
      by (intros Ht; apply has_tag_GT, Hsp in Ht; discriminate).
    rewrite decode_entities_absent.
    - apply all_space_trim, forallb_forall. intros c Hc.
      apply (replace_from_incl newlines_re [NL] html O []) in Hc.
      destruct Hc as [<-|Hc]; [reflexivity|apply Hsp, Hc].
    - assert (Hamp : ~ In AMP html)
        by (intros Hin; apply Hsp in Hin; discriminate).
      intros [Ho|[Ho|[Ho|Ho]]]; destruct Ho as (a & b & ->); apply Hamp;
        apply in_or_app; right; left; reflexivity. }
  rewrite E. split; [reflexivity|]. split; [reflexivity|].
  apply or_else_empty.
Qed.

Lemma htmlToText_blank_witness :
  htmlToText [32; 10; 160; 9; 10; 10; 32] = []
  /\ extractPhoneFR (htmlToText [32; 10; 160; 9; 10; 10; 32]) = []
  /\ guessFullName (htmlToText [32; 10; 160; 9; 10; 10; 32]) (lit "Mx")
     = lit "Mx".
Proof. apply htmlToText_blank. reflexivity. Defined.

(** ** createContact: a blank form *)

(** X24. [createContact] does not check the form: when the three fields
    hold nothing but white space, the contact sent is still built, named
    [Nouveau contact], with no given name, no surname, no email address
    and no phone. *)
Theorem createContact_blank_form (form : Form.t) :
  forallb is_space (Form.fullName form) = true ->
  forallb is_space (Form.email form) = true ->
  forallb is_space (Form.phone form) = true ->
  createContact_body form
  = {| Contact.givenName := [];
       Contact.surname := [];
       Contact.displayName := lit "Nouveau contact";
       Contact.emailAddresses := [];
       Contact.businessPhones := [] |}.
Proof.
  intros Hn He Hp. unfold createContact_body.
  rewrite (all_space_trim _ Hn), (all_space_trim _ He), (all_space_trim _ Hp).
  reflexivity.
Qed.

Lemma createContact_blank_form_witness :
  createContact_body
    {| Form.fullName := lit "  "; Form.email := []; Form.phone := lit " " |}
  = {| Contact.givenName := [];
       Contact.surname := [];
       Contact.displayName := lit "Nouveau contact";
       Contact.emailAddresses := [];
       Contact.businessPhones := [] |}.
Proof. apply createContact_blank_form; reflexivity. Defined.
